(** * FlurryPP polynomials: a shallow embedding of [src/src/polynomials.cpp]

    The basis-function library of the Flux-Reconstruction solver, embedded
    function by function.

    Conventions of the embedding
    - [double] is read as a real number ([R]): the arithmetic of the source
      is taken exactly, without rounding, overflow, infinities or NaN.
      Decimal literals are the rationals they denote.
    - [int] is read as [Z]; signed overflow is undefined behaviour in C++
      and no execution that overflows is described here.  [uint] indices and
      loop counters that start at 0 and count upwards are [nat].
    - An [int] used in a [double] expression is converted with [IZR].
    - [std::pow] at an integer-valued exponent is [powerRZ]; [std::sqrt] and
      [std::exp] are [sqrt] and [exp] of the real numbers.
    - [FatalError(msg)] prints the message and ends the process: a function
      that may call it returns a [result], and [Fatal msg] ends the
      computation at that point.  Reading a [vector] out of its range is
      undefined behaviour: [Undefined].
    - Declarations the file takes from headers ([point], the scheme tags,
      [factorial]) are variables of the section below. *)

From Equations Require Import Equations.
From Stdlib Require Import String ZArith List Permutation Lia Bool.
From Stdlib Require Import Reals Lra Psatz.
Import ListNotations.

Open Scope Z_scope.
Open Scope R_scope.

(** * Part I: the embedding *)

(** ** Fatal errors and undefined reads *)

Inductive result (A : Type) : Type :=
| Ok (a : A)
| Fatal (msg : string)
| Undefined.
Arguments Ok {A} a.
Arguments Fatal {A} msg.
Arguments Undefined {A}.

Definition bind {A B : Type} (m : result A) (k : A -> result B) : result B :=
  match m with
  | Ok a => k a
  | Fatal msg => Fatal msg
  | Undefined => Undefined
  end.

Notation "v <- m ;; k" := (bind m (fun v => k))
  (at level 61, m at next level, right associativity).
Notation "m ;;; k" := (bind m (fun _ => k))
  (at level 61, right associativity).

(** [FatalError] as a statement: it never hands a value on. *)
Definition FatalError {A : Type} (msg : string) : result A := Fatal msg.

(** [if (c) FatalError(msg);] followed by the rest of the function. *)
Definition fatal_if (c : bool) (msg : string) : result unit :=
  if c then FatalError msg else Ok tt.

(** [v[i]] on a [vector<double>]. *)
Definition vec_at (v : list R) (i : nat) : result R :=
  match nth_error v i with
  | Some a => Ok a
  | None => Undefined
  end.

(** A loop whose body may end the computation. *)
Fixpoint for_each {S I : Type} (body : S -> I -> result S)
    (its : list I) (s : S) : result S :=
  match its with
  | [] => Ok s
  | it :: rest => s' <- body s it ;; for_each body rest s'
  end.

(** Comparisons of [double]s. *)
Definition Rltb (a b : R) : bool := if Rlt_dec a b then true else false.
Definition Reqb (a b : R) : bool := if Req_dec_T a b then true else false.

(** The iteration space of
      [for (k = 0; k < kmax; k++) for (j = 0; j < k+1; j++)],
    in the order the two loops visit it. *)
Definition loop_nest (kmax : nat) : list (nat * nat) :=
  flat_map (fun k => map (fun j => (k, j)) (seq 0 (k + 1))) (seq 0 kmax).

(** ** Lagrange interpolation *)

(** [double Lagrange(vector<double> &x_lag, double y, uint mode)] *)
Definition Lagrange (x_lag : list R) (y : R) (mode : nat) : result R :=
  let lag := 1 in
  for_each
    (fun lag i =>
       if negb (i =? mode)%nat then
         xi <- vec_at x_lag i ;;
         xm <- vec_at x_lag mode ;;
         Ok (lag * ((y - xi) / (xm - xi)))
       else Ok lag)
    (seq 0 (length x_lag)) lag.

(** [double dLagrange(vector<double> &x_lag, double y, uint mode)].  The
    body of the loop over [j] updates the pair [(dLag_num, dLag_den)]; the
    body of the loop over [i] adds one quotient to [dLag]. *)
Definition dLagrange_j (x_lag : list R) (y : R) (mode i : nat)
    (st : R * R) (j : nat) : result (R * R) :=
  let '(dLag_num, dLag_den) := st in
  dLag_num <-
    (if negb (j =? mode)%nat && negb (j =? i)%nat then
       xj <- vec_at x_lag j ;;
       Ok (dLag_num * (y - xj))
     else Ok dLag_num) ;;
  dLag_den <-
    (if negb (j =? mode)%nat then
       xm <- vec_at x_lag mode ;;
       xj <- vec_at x_lag j ;;
       Ok (dLag_den * (xm - xj))
     else Ok dLag_den) ;;
  Ok (dLag_num, dLag_den).

Definition dLagrange_i (x_lag : list R) (y : R) (mode : nat)
    (dLag : R) (i : nat) : result R :=
  if negb (i =? mode)%nat then
    nd <- for_each (dLagrange_j x_lag y mode i)
            (seq 0 (length x_lag)) (1, 1) ;;
    Ok (dLag + fst nd / snd nd)
  else Ok dLag.

Definition dLagrange (x_lag : list R) (y : R) (mode : nat) : result R :=
  let dLag := 0 in
  for_each (dLagrange_i x_lag y mode) (seq 0 (length x_lag)) dLag.

(** [double ddLagrange(vector<double> &x_lag, double y, uint mode)], with
    the bodies of its loops over [k], [j] and [i]. *)
Definition ddLagrange_k (x_lag : list R) (y : R) (mode i j : nat)
    (st : R * R) (k : nat) : result (R * R) :=
  let '(ddLag_num, ddLag_den) := st in
  if negb (k =? mode)%nat then
    ddLag_num <-
      (if negb (k =? i)%nat && negb (k =? j)%nat then
         xk <- vec_at x_lag k ;;
         Ok (ddLag_num * (y - xk))
       else Ok ddLag_num) ;;
    xm <- vec_at x_lag mode ;;
    xk <- vec_at x_lag k ;;
    Ok (ddLag_num, ddLag_den * (xm - xk))
  else Ok (ddLag_num, ddLag_den).

Definition ddLagrange_j (x_lag : list R) (y : R) (mode i : nat)
    (ddLag : R) (j : nat) : result R :=
  if negb (j =? mode)%nat then
    nd <- for_each (ddLagrange_k x_lag y mode i j)
            (seq 0 (length x_lag)) (1, 1) ;;
    if negb (j =? i)%nat
    then Ok (ddLag + fst nd / snd nd)
    else Ok ddLag
  else Ok ddLag.

Definition ddLagrange_i (x_lag : list R) (y : R) (mode : nat)
    (ddLag : R) (i : nat) : result R :=
  if negb (i =? mode)%nat then
    for_each (ddLagrange_j x_lag y mode i) (seq 0 (length x_lag)) ddLag
  else Ok ddLag.

Definition ddLagrange (x_lag : list R) (y : R) (mode : nat) : result R :=
  let ddLag := 0 in
  for_each (ddLagrange_i x_lag y mode) (seq 0 (length x_lag)) ddLag.

(** ** Legendre polynomials *)

(** [double Legendre(double in_r, int in_mode)]: the recursion goes down by
    one and by two from [in_mode >= 2], and stops at 1, 0 and below 0. *)
Equations? Legendre (in_r : R) (in_mode : Z) : R by wf (Z.to_nat in_mode) lt :=
  Legendre in_r in_mode with Z_lt_dec in_mode 0 := {
    | left _ => 0
    | right _ with Z.eq_dec in_mode 0 := {
      | left _ => 1
      | right _ with Z.eq_dec in_mode 1 := {
        | left _ => in_r
        | right _ =>
            (IZR (2 * in_mode - 1) * in_r * Legendre in_r (in_mode - 1)
             - IZR (in_mode - 1) * Legendre in_r (in_mode - 2)) / IZR in_mode } } }.
Proof. all: lia. Qed.

(** [double dLegendre(double in_r, int in_mode)] *)
Definition dLegendre (in_r : R) (in_mode : Z) : R :=
  let dLeg := 0 in
  if (in_mode =? 0)%Z then
    0
  else
    if Rltb (-1) in_r && Rltb in_r 1 then
      IZR in_mode * (in_r * Legendre in_r in_mode - Legendre in_r (in_mode - 1))
      / (in_r * in_r - 1)
    else
      let dLeg :=
        if Reqb in_r (-1)
        then powerRZ (-1) (in_mode - 1) * 0.5 * IZR in_mode * (IZR in_mode + 1)
        else dLeg in
      let dLeg :=
        if Reqb in_r 1
        then 0.5 * IZR in_mode * (IZR in_mode + 1)
        else dLeg in
      dLeg.

(** ** Hierarchical Legendre basis on the square *)

(** [double Legendre2D_hierarchical(int in_mode, vector<double> in_loc,
    int in_basis_order)].  The loop state is [(mode, leg_basis)]. *)
Definition Legendre2D_hierarchical_loop (in_mode : Z) (in_loc : list R)
    (in_basis_order : Z) : result (nat * R) :=
  for_each
    (fun '(mode, leg_basis) '(k, j) =>
       let i := (k - j)%nat in
       if (Z.of_nat i <=? in_basis_order)%Z && (Z.of_nat j <=? in_basis_order)%Z
       then
         leg_basis <-
           (if (Z.of_nat mode =? in_mode)%Z then
              l0 <- vec_at in_loc 0 ;;
              l1 <- vec_at in_loc 1 ;;
              Ok (Legendre l0 (Z.of_nat i) * Legendre l1 (Z.of_nat j))
            else Ok leg_basis) ;;
         Ok (S mode, leg_basis)
       else Ok (mode, leg_basis))
    (loop_nest (Z.to_nat (in_basis_order * in_basis_order + 1)))
    (0%nat, 0).

Definition Legendre2D_hierarchical (in_mode : Z) (in_loc : list R)
    (in_basis_order : Z) : result R :=
  let n_dof := ((in_basis_order + 1) * (in_basis_order + 1))%Z in
  fatal_if (negb (in_mode <? n_dof)%Z)
    "Invalid mode when evaluating Legendre basis." ;;;
  st <- Legendre2D_hierarchical_loop in_mode in_loc in_basis_order ;;
  Ok (snd st).

(** ** Gamma function at integers *)

(** [double eval_gamma(int in_n)] *)
Definition eval_gamma (in_n : Z) : R :=
  if (in_n =? 1)%Z then
    1
  else
    let gamma_val := IZR (in_n - 1) in
    fold_left
      (fun gamma_val i => gamma_val * IZR (in_n - 2 - Z.of_nat i))
      (seq 0 (Z.to_nat (in_n - 2))) gamma_val.

(** ** Normalised Jacobi polynomials *)

(** [double eval_jacobi(double in_r, int in_alpha, int in_beta, int in_mode)].
    The source recurses from [in_mode] to [in_mode-1] and [in_mode-2] with
    base cases 0 and 1 only, so a call with a negative [in_mode] never
    returns; every call in this file passes a loop counter or a difference
    [k-j] with [j <= k].  The order is a [nat] here. *)
Fixpoint eval_jacobi (in_r : R) (in_alpha in_beta : Z) (in_mode : nat) : R :=
  match in_mode with
  | O =>
      let dtemp_0 := powerRZ 2 (- in_alpha - in_beta - 1) in
      let dtemp_1 := eval_gamma (in_alpha + in_beta + 2) in
      let dtemp_2 := eval_gamma (in_alpha + 1) * eval_gamma (in_beta + 1) in
      sqrt (dtemp_0 * (dtemp_1 / dtemp_2))
  | S O =>
      let dtemp_0 := powerRZ 2 (- in_alpha - in_beta - 1) in
      let dtemp_1 := eval_gamma (in_alpha + in_beta + 2) in
      let dtemp_2 := eval_gamma (in_alpha + 1) * eval_gamma (in_beta + 1) in
      let dtemp_3 := IZR (in_alpha + in_beta + 3) in
      let dtemp_4 := IZR ((in_alpha + 1) * (in_beta + 1)) in
      let dtemp_5 :=
        in_r * IZR (in_alpha + in_beta + 2) + IZR (in_alpha - in_beta) in
      0.5 * sqrt (dtemp_0 * (dtemp_1 / dtemp_2)) * sqrt (dtemp_3 / dtemp_4)
      * dtemp_5
  | S (S mode_2 as mode_1) =>
      let n := Z.of_nat in_mode in
      let dtemp_0 :=
        IZR (n * (n + in_alpha + in_beta) * (n + in_alpha) * (n + in_beta)) in
      let dtemp_1 :=
        IZR ((2 * n + in_alpha + in_beta - 1)
             * (2 * n + in_alpha + in_beta + 1)) in
      let dtemp_3 := IZR (2 * n + in_alpha + in_beta) in
      let dtemp_4 :=
        IZR ((n - 1) * ((n - 1) + in_alpha + in_beta) * ((n - 1) + in_alpha)
             * ((n - 1) + in_beta)) in
      let dtemp_5 :=
        IZR ((2 * (n - 1) + in_alpha + in_beta - 1)
             * (2 * (n - 1) + in_alpha + in_beta + 1)) in
      let dtemp_6 := IZR (2 * (n - 1) + in_alpha + in_beta) in
      let dtemp_7 := IZR (- (in_alpha * in_alpha - in_beta * in_beta)) in
      let dtemp_8 :=
        IZR ((2 * (n - 1) + in_alpha + in_beta)
             * (2 * (n - 1) + in_alpha + in_beta + 2)) in
      let dtemp_9 := (2 / dtemp_3) * sqrt (dtemp_0 / dtemp_1) in
      let dtemp_10 := (2 / dtemp_6) * sqrt (dtemp_4 / dtemp_5) in
      let dtemp_11 := dtemp_7 / dtemp_8 in
      let dtemp_12 := in_r * eval_jacobi in_r in_alpha in_beta mode_1 in
      let dtemp_13 := dtemp_10 * eval_jacobi in_r in_alpha in_beta mode_2 in
      let dtemp_14 := dtemp_11 * eval_jacobi in_r in_alpha in_beta mode_1 in
      (1 / dtemp_9) * (dtemp_12 - dtemp_13 - dtemp_14)
  end.

(** [double eval_grad_jacobi(double in_r, int in_alpha, int in_beta,
    int in_mode)] *)
Definition eval_grad_jacobi (in_r : R) (in_alpha in_beta : Z)
    (in_mode : nat) : R :=
  match in_mode with
  | O => 0
  | S mode_1 =>
      let n := Z.of_nat in_mode in
      sqrt (1 * IZR n * IZR (n + in_alpha + in_beta + 1))
      * eval_jacobi in_r (in_alpha + 1) (in_beta + 1) mode_1
  end.

(** ** Correction functions *)

(** [double VCJH_1d(double xi, int mode, int order, double eta)] *)
Definition VCJH_1d (xi : R) (mode order : Z) (eta : R) : R :=
  if (mode =? 0)%Z then
    powerRZ (-1) order / 2
    * (Legendre xi order
       - (eta * Legendre xi (order - 1) + Legendre xi (order + 1)) / (1 + eta))
  else
    0.5
    * (Legendre xi order
       + (eta * Legendre xi (order - 1) + Legendre xi (order + 1)))
    / (1 + eta).

(** [double dVCJH_1d(double in_r, int in_mode, int in_order, double in_eta)] *)
Definition dVCJH_1d (in_r : R) (in_mode in_order : Z) (in_eta : R) : R :=
  let dtemp_0 := 0 in
  if (in_mode =? 0)%Z then
    if (in_order =? 0)%Z then
      0.5 * powerRZ (-1) in_order
      * (dLegendre in_r in_order
         - dLegendre in_r (in_order + 1) / (1 + in_eta))
    else
      0.5 * powerRZ (-1) in_order
      * (dLegendre in_r in_order
         - (in_eta * dLegendre in_r (in_order - 1)
            + dLegendre in_r (in_order + 1)) / (1 + in_eta))
  else if (in_mode =? 1)%Z then
    if (in_order =? 0)%Z then
      0.5 * (dLegendre in_r in_order
             + dLegendre in_r (in_order + 1) / (1 + in_eta))
    else
      0.5 * (dLegendre in_r in_order
             + (in_eta * dLegendre in_r (in_order - 1)
                + dLegendre in_r (in_order + 1)) / (1 + in_eta))
  else dtemp_0.

(** ** Points *)

(** [point] is declared in a header; the functions here use its members
    [x] and [y]. *)
Record point : Type := mkpoint { x : R; y : R }.

Definition set_x (p : point) (v : R) : point := {| x := v; y := y p |}.
Definition set_y (p : point) (v : R) : point := {| x := x p; y := v |}.

Section Headers.

(** What the included headers declare and this file only uses. *)

(** The value of a default-constructed [point] ([point ab;]). *)
Variable point0 : point.

(** The scheme tags of [compute_eta]. *)
Variables DG SD HU CPLUS : Z.

(** [factorial], of [funcs.hpp], as used in a [double] expression. *)
Variable factorial : Z -> R.

(** [std::pow] at an exponent that need not be an integer. *)
Variable std_pow : R -> R -> R.

(** ** Collapsed coordinates *)

(** [point rs_to_ab(point &rs)] *)
Definition rs_to_ab (rs : point) : point :=
  let ab := point0 in
  let ab :=
    if Reqb (x rs) 1
    then set_x ab (-1)
    else set_y ab (2 * ((1 + x rs) / (1 - y rs)) - 1) in
  let ab := set_y ab (y rs) in
  ab.

(** ** Exponential filter *)

(** [double exponential_filter(int in_mode, int inBasisOrder,
    double exponent)].  The loop state is [(mode, sigma)]. *)
Definition exponential_filter_loop (in_mode inBasisOrder : Z)
    (exponent : R) : nat * R :=
  let n_dof := ((inBasisOrder + 1) * (inBasisOrder + 1))%Z in
  fold_left
    (fun '(mode, sigma) '(k, j) =>
       let i := (k - j)%nat in
       if (Z.of_nat i <=? inBasisOrder)%Z && (Z.of_nat j <=? inBasisOrder)%Z
       then
         let sigma :=
           if (Z.of_nat mode =? in_mode)%Z then
             let eta := IZR (Z.of_nat (i + j)) / IZR n_dof in
             exp (IZR (-1) * std_pow eta exponent)
           else sigma in
         (S mode, sigma)
       else (mode, sigma))
    (loop_nest (Z.to_nat (inBasisOrder * inBasisOrder + 1)))
    (0%nat, 0).

Definition exponential_filter (in_mode inBasisOrder : Z)
    (exponent : R) : result R :=
  let n_dof := ((inBasisOrder + 1) * (inBasisOrder + 1))%Z in
  fatal_if (negb (in_mode <? n_dof)%Z)
    "Invalid mode when evaluating exponential filter." ;;;
  Ok (snd (exponential_filter_loop in_mode inBasisOrder exponent)).

(** ** Dubiner basis on the triangle *)

(** [double eval_dubiner_basis_2d(point &in_rs, int in_mode,
    int in_basis_order)].  The loop state is [(mode, dubiner_basis_2d)]. *)
Definition eval_dubiner_basis_2d_loop (ab : point)
    (in_mode in_basis_order : Z) : nat * R :=
  fold_left
    (fun '(mode, dubiner_basis_2d) '(k, j) =>
       let i := (k - j)%nat in
       let dubiner_basis_2d :=
         if (Z.of_nat mode =? in_mode)%Z then
           let jacobi_0 := eval_jacobi (x ab) 0 0 i in
           let jacobi_1 := eval_jacobi (y ab) (2 * Z.of_nat i + 1) 0 j in
           sqrt 2 * jacobi_0 * jacobi_1 * powerRZ (1 - y ab) (Z.of_nat i)
         else dubiner_basis_2d in
       (S mode, dubiner_basis_2d))
    (loop_nest (Z.to_nat (in_basis_order + 1)))
    (0%nat, 0).

Definition eval_dubiner_basis_2d (in_rs : point)
    (in_mode in_basis_order : Z) : result R :=
  let n_dof := (((in_basis_order + 1) * (in_basis_order + 2)) ÷ 2)%Z in
  if (in_mode <? n_dof)%Z then
    let ab := rs_to_ab in_rs in
    Ok (snd (eval_dubiner_basis_2d_loop ab in_mode in_basis_order))
  else
    FatalError "Invalid mode when evaluating Dubiner basis.".

(** [double eval_dr_dubiner_basis_2d(point &in_rs, int in_mode,
    int in_basis_order)] *)
Definition eval_dr_dubiner_basis_2d_loop (ab : point)
    (in_mode in_basis_order : Z) : nat * R :=
  fold_left
    (fun '(mode, dr_dubiner_basis_2d) '(k, j) =>
       let i := (k - j)%nat in
       let dr_dubiner_basis_2d :=
         if (Z.of_nat mode =? in_mode)%Z then
           let jacobi_0 := eval_grad_jacobi (x ab) 0 0 i in
           let jacobi_1 := eval_jacobi (y ab) (2 * Z.of_nat i + 1) 0 j in
           if (i =? 0)%nat then
             0
           else
             2 * sqrt 2 * jacobi_0 * jacobi_1
             * powerRZ (1 - y ab) (Z.of_nat i - 1)
         else dr_dubiner_basis_2d in
       (S mode, dr_dubiner_basis_2d))
    (loop_nest (Z.to_nat (in_basis_order + 1)))
    (0%nat, 0).

Definition eval_dr_dubiner_basis_2d (in_rs : point)
    (in_mode in_basis_order : Z) : result R :=
  let n_dof := (((in_basis_order + 1) * (in_basis_order + 2)) ÷ 2)%Z in
  if (in_mode <? n_dof)%Z then
    let ab := rs_to_ab in_rs in
    Ok (snd (eval_dr_dubiner_basis_2d_loop ab in_mode in_basis_order))
  else
    FatalError "Invalid mode when evaluating basis.".

(** [double eval_ds_dubiner_basis_2d(point &in_rs, int in_mode,
    int in_basis_order)] *)
Definition eval_ds_dubiner_basis_2d_loop (ab : point)
    (in_mode in_basis_order : Z) : nat * R :=
  fold_left
    (fun '(mode, ds_dubiner_basis_2d) '(k, j) =>
       let i := (k - j)%nat in
       let ds_dubiner_basis_2d :=
         if (Z.of_nat mode =? in_mode)%Z then
           let jacobi_0 := eval_grad_jacobi (x ab) 0 0 i in
           let jacobi_1 := eval_jacobi (y ab) (2 * Z.of_nat i + 1) 0 j in
           let jacobi_2 := eval_jacobi (x ab) 0 0 i in
           let jacobi_3 :=
             eval_grad_jacobi (y ab) (2 * Z.of_nat i + 1) 0 j
             * powerRZ (1 - y ab) (Z.of_nat i) in
           let jacobi_4 :=
             eval_jacobi (y ab) (2 * Z.of_nat i + 1) 0 j
             * IZR (Z.of_nat i) * powerRZ (1 - y ab) (Z.of_nat i - 1) in
           if (i =? 0)%nat then
             sqrt 2 * (jacobi_2 * jacobi_3)
           else
             sqrt 2
             * ((jacobi_0 * jacobi_1 * powerRZ (1 - y ab) (Z.of_nat i - 1)
                 * (1 + x ab))
                + (jacobi_2 * (jacobi_3 - jacobi_4)))
         else ds_dubiner_basis_2d in
       (S mode, ds_dubiner_basis_2d))
    (loop_nest (Z.to_nat (in_basis_order + 1)))
    (0%nat, 0).

Definition eval_ds_dubiner_basis_2d (in_rs : point)
    (in_mode in_basis_order : Z) : result R :=
  let n_dof := (((in_basis_order + 1) * (in_basis_order + 2)) ÷ 2)%Z in
  if (in_mode <? n_dof)%Z then
    let ab := rs_to_ab in_rs in
    Ok (snd (eval_ds_dubiner_basis_2d_loop ab in_mode in_basis_order))
  else
    FatalError "ERROR: Invalid mode when evaluating basis.".

(** ** The blending constant *)

(** The tabulated constant of the CPlus scheme. *)
Definition c_1d_table (order : Z) : result R :=
  if (order =? 2)%Z then Ok 0.206
  else if (order =? 3)%Z then Ok 3.80e-3
  else if (order =? 4)%Z then Ok 4.67e-5
  else if (order =? 5)%Z then Ok 4.28e-7
  else FatalError "C_plus scheme not implemented for this order".

(** [double compute_eta(int vcjh_scheme, int order)] *)
Definition compute_eta (vcjh_scheme order : Z) : result R :=
  fatal_if ((order =? 0)%Z && negb (vcjh_scheme =? DG)%Z)
    "ERROR: P=0 only compatible with DG. Set VCJH scheme type to 0!" ;;;
  if (vcjh_scheme =? DG)%Z then
    Ok 0
  else if (vcjh_scheme =? SD)%Z then
    Ok ((1 * IZR order) / (1 * IZR (order + 1)))
  else if (vcjh_scheme =? HU)%Z then
    Ok ((1 * IZR (order + 1)) / (1 * IZR order))
  else if (vcjh_scheme =? CPLUS)%Z then
    c_1d <- c_1d_table order ;;
    let ap :=
      1 / powerRZ 2 order * factorial (2 * order)
      / (factorial order * factorial order) in
    Ok (c_1d * IZR (2 * order + 1) / 2
        * (factorial order * ap) * (factorial order * ap))
  else
    FatalError "Invalid VCJH scheme.".

End Headers.

(** ** The mode numbering, read off the loops *)

(** The degree pairs [(i, j)] in the order the triangle sweep counts them:
    every step of the loop nest counts one. *)
Definition tri_modes (in_basis_order : Z) : list (nat * nat) :=
  map (fun '(k, j) => ((k - j)%nat, j))
    (loop_nest (Z.to_nat (in_basis_order + 1))).

(** The degree pairs the square sweep counts: the steps that pass the test
    [i <= in_basis_order && j <= in_basis_order]. *)
Definition square_modes (in_basis_order : Z) : list (nat * nat) :=
  filter
    (fun '(i, j) =>
       (Z.of_nat i <=? in_basis_order)%Z && (Z.of_nat j <=? in_basis_order)%Z)
    (map (fun '(k, j) => ((k - j)%nat, j))
       (loop_nest (Z.to_nat (in_basis_order * in_basis_order + 1)))).

(** The value a function computes once its sweep has reached degrees
    [(i, j)]: the bodies of the three [if (mode == in_mode)] blocks. *)
Definition dubiner_at (ab : point) (i j : nat) : R :=
  sqrt 2 * eval_jacobi (x ab) 0 0 i
  * eval_jacobi (y ab) (2 * Z.of_nat i + 1) 0 j
  * powerRZ (1 - y ab) (Z.of_nat i).

Definition dr_dubiner_at (ab : point) (i j : nat) : R :=
  if (i =? 0)%nat then 0
  else
    2 * sqrt 2 * eval_grad_jacobi (x ab) 0 0 i
    * eval_jacobi (y ab) (2 * Z.of_nat i + 1) 0 j
    * powerRZ (1 - y ab) (Z.of_nat i - 1).

Definition ds_dubiner_at (ab : point) (i j : nat) : R :=
  let jacobi_0 := eval_grad_jacobi (x ab) 0 0 i in
  let jacobi_1 := eval_jacobi (y ab) (2 * Z.of_nat i + 1) 0 j in
  let jacobi_2 := eval_jacobi (x ab) 0 0 i in
  let jacobi_3 :=
    eval_grad_jacobi (y ab) (2 * Z.of_nat i + 1) 0 j
    * powerRZ (1 - y ab) (Z.of_nat i) in
  let jacobi_4 :=
    eval_jacobi (y ab) (2 * Z.of_nat i + 1) 0 j
    * IZR (Z.of_nat i) * powerRZ (1 - y ab) (Z.of_nat i - 1) in
  if (i =? 0)%nat then sqrt 2 * (jacobi_2 * jacobi_3)
  else
    sqrt 2
    * ((jacobi_0 * jacobi_1 * powerRZ (1 - y ab) (Z.of_nat i - 1) * (1 + x ab))
       + (jacobi_2 * (jacobi_3 - jacobi_4))).

(** The value selected by a mode number out of a list of degree pairs;
    [dflt] when the number names no pair. *)
Definition at_mode (modes : list (nat * nat)) (in_mode : Z)
    (found : nat -> nat -> R) (dflt : R) : R :=
  if (in_mode <? 0)%Z then dflt
  else
    match nth_error modes (Z.to_nat in_mode) with
    | Some (i, j) => found i j
    | None => dflt
    end.

(** One step of a sweep that counts every pair: the counter goes up, and
    the value is replaced when the counter stands at [in_mode]. *)
Definition count_step (in_mode : Z) (found : nat -> nat -> R)
    (st : nat * R) (kj : nat * nat) : nat * R :=
  (S (fst st),
   if (Z.of_nat (fst st) =? in_mode)%Z
   then found (fst kj - snd kj)%nat (snd kj) else snd st).

(** The test [i <= order && j <= order] on a step [(k, j)] of the nest. *)
Definition in_square (order : Z) (kj : nat * nat) : bool :=
  (Z.of_nat (fst kj - snd kj) <=? order)%Z && (Z.of_nat (snd kj) <=? order)%Z.

(** ** The calls of [compute_eta] that end in [FatalError] *)

Definition eta_fatal (DG SD HU CPLUS : Z) (vcjh_scheme order : Z) : Prop :=
  (order = 0%Z /\ vcjh_scheme <> DG)
  \/ (vcjh_scheme = CPLUS /\ ~ (2 <= order <= 5)%Z)
  \/ (vcjh_scheme <> DG /\ vcjh_scheme <> SD /\ vcjh_scheme <> HU
      /\ vcjh_scheme <> CPLUS).

(** ** Auxiliary notions for the derivative properties *)

(** The value carried by a result that is a value. *)
Definition value_of (m : result R) : R :=
  match m with
  | Ok v => v
  | _ => 0
  end.

(** The product of the factors [y - X[j]] over the indices [j] of [idx]
    that [skip] does not leave out. *)
Fixpoint lin_prod (X : list R) (skip : nat -> bool) (idx : list nat)
    (y : R) : R :=
  match idx with
  | [] => 1
  | j :: rest =>
      (if skip j then 1 else y - nth j X 0) * lin_prod X skip rest y
  end.

(** The sum of [term i] over the indices [i] of [idx] that [skip] does not
    leave out. *)
Fixpoint skip_sum (skip : nat -> bool) (term : nat -> R) (idx : list nat) : R :=
  match idx with
  | [] => 0
  | i :: rest => (if skip i then 0 else term i) + skip_sum skip term rest
  end.

(** The recursion of [Legendre] differentiated term by term. *)
Fixpoint Legendre_deriv (r : R) (n : nat) : R :=
  match n with
  | O => 0
  | S O => 1
  | S (S n_2 as n_1) =>
      (IZR (2 * Z.of_nat n - 1)
       * (Legendre r (Z.of_nat n_1) + r * Legendre_deriv r n_1)
       - IZR (Z.of_nat n - 1) * Legendre_deriv r n_2) / IZR (Z.of_nat n)
  end.

(** * Part II: properties *)

(** ** Legendre *)

(** The four branches of the source, as equations. *)
Lemma Legendre_neg (r : R) (n : Z) : (n < 0)%Z -> Legendre r n = 0.
Proof.
  intros Hn. rewrite Legendre_equation_1.
  destruct (Z_lt_dec n 0); [reflexivity | lia].
Qed.

Lemma Legendre_0 (r : R) : Legendre r 0 = 1.
Proof. rewrite Legendre_equation_1. reflexivity. Qed.

Lemma Legendre_1 (r : R) : Legendre r 1 = r.
Proof. rewrite Legendre_equation_1. reflexivity. Qed.

Lemma Legendre_rec (r : R) (n : Z) :
  (2 <= n)%Z ->
  Legendre r n =
  (IZR (2 * n - 1) * r * Legendre r (n - 1)
   - IZR (n - 1) * Legendre r (n - 2)) / IZR n.
Proof.
  intros Hn. rewrite Legendre_equation_1 at 1.
  destruct (Z_lt_dec n 0); [lia |]. simpl.
  destruct (Z.eq_dec n 0); [lia |]. simpl.
  destruct (Z.eq_dec n 1); [lia |]. reflexivity.
Qed.

Example Legendre_2 (r : R) : Legendre r 2 = (3 * r * r - 1) / 2.
Proof.
  rewrite Legendre_rec by lia. simpl.
  rewrite Legendre_0, Legendre_1. field.
Qed.

Example Legendre_3 (r : R) : Legendre r 3 = (5 * r * r * r - 3 * r) / 2.
Proof.
  rewrite Legendre_rec by lia. simpl.
  rewrite Legendre_2, Legendre_1. field.
Qed.

(** Induction two steps at a time, the shape of the recursion. *)
Lemma Z_two_step_ind (P : Z -> Prop) :
  P 0%Z -> P 1%Z ->
  (forall n, (2 <= n)%Z -> P (n - 1)%Z -> P (n - 2)%Z -> P n) ->
  forall n, (0 <= n)%Z -> P n.
Proof.
  intros H0 H1 Hstep n Hn.
  assert (H : P n /\ P (n + 1)%Z).
  { revert n Hn. apply natlike_ind; [split; assumption |].
    intros k Hk [Hk0 Hk1]. split.
    - replace (Z.succ k) with (k + 1)%Z by lia. exact Hk1.
    - apply Hstep; [lia | |].
      + replace (Z.succ k + 1 - 1)%Z with (k + 1)%Z by lia. exact Hk1.
      + replace (Z.succ k + 1 - 2)%Z with k by lia. exact Hk0. }
  exact (proj1 H).
Qed.

Lemma powerRZ_m1_pred (n : Z) : powerRZ (-1) (n - 1) = - powerRZ (-1) n.
Proof.
  unfold Z.sub. rewrite powerRZ_add by lra.
  simpl. field.
Qed.

Lemma powerRZ_m1_pred2 (n : Z) : powerRZ (-1) (n - 2) = powerRZ (-1) n.
Proof.
  unfold Z.sub. rewrite powerRZ_add by lra.
  simpl. field.
Qed.

Lemma powerRZ_m1_succ (n : Z) : powerRZ (-1) (n + 1) = - powerRZ (-1) n.
Proof. rewrite powerRZ_add by lra. simpl. ring. Qed.

Lemma powerRZ_m1_sqr (n : Z) : powerRZ (-1) n * powerRZ (-1) n = 1.
Proof.
  rewrite <- powerRZ_mult.
  replace (-1 * -1) with 1 by ring.
  apply powerRZ_R1.
Qed.

(** The literal [0.5]. *)
Lemma half_eq : 0.5 = 1 / 2.
Proof. lra. Qed.

Lemma IZR_neq0 (n : Z) : n <> 0%Z -> IZR n <> 0.
Proof. intros H. apply not_0_IZR. exact H. Qed.

Lemma Legendre_at_1 (n : Z) : (0 <= n)%Z -> Legendre 1 n = 1.
Proof.
  revert n. apply Z_two_step_ind.
  - apply Legendre_0.
  - apply Legendre_1.
  - intros n Hn IH1 IH2. rewrite Legendre_rec, IH1, IH2 by assumption.
    rewrite !minus_IZR, mult_IZR.
    field. apply IZR_neq0. lia.
Qed.

Lemma Legendre_at_m1 (n : Z) : (0 <= n)%Z -> Legendre (-1) n = powerRZ (-1) n.
Proof.
  revert n. apply Z_two_step_ind.
  - rewrite Legendre_0. reflexivity.
  - rewrite Legendre_1. simpl. ring.
  - intros n Hn IH1 IH2. rewrite Legendre_rec, IH1, IH2 by assumption.
    rewrite powerRZ_m1_pred, powerRZ_m1_pred2.
    rewrite !minus_IZR, mult_IZR.
    field. apply IZR_neq0. lia.
Qed.

(** C6. Known values of [Legendre]: for every [n >= 0] the value at 1 is 1
    and the value at -1 is (-1)^n; for every [r] the orders 0 and 1 give 1
    and [r]; and every negative order gives 0. *)
Theorem Legendre_known_values (r : R) (n : Z) :
  ((0 <= n)%Z -> Legendre 1 n = 1 /\ Legendre (-1) n = powerRZ (-1) n)
  /\ Legendre r 0 = 1
  /\ Legendre r 1 = r
  /\ ((n < 0)%Z -> Legendre r n = 0).
Proof.
  split; [| split; [| split]].
  - intros Hn. split; [apply Legendre_at_1 | apply Legendre_at_m1]; exact Hn.
  - apply Legendre_0.
  - apply Legendre_1.
  - apply Legendre_neg.
Qed.

Lemma Legendre_known_values_witness :
  (Legendre 1 3 = 1 /\ Legendre (-1) 3 = powerRZ (-1) 3)
  /\ Legendre 2 (-4) = 0.
Proof.
  split.
  - apply (proj1 (Legendre_known_values 0 3)). lia.
  - apply (proj2 (proj2 (proj2 (Legendre_known_values 2 (-4))))). lia.
Defined.

(** ** dLegendre *)

Lemma Rltb_true (a b : R) : a < b -> Rltb a b = true.
Proof. intros H. unfold Rltb. destruct (Rlt_dec a b); [reflexivity | lra]. Qed.

Lemma Rltb_false (a b : R) : b <= a -> Rltb a b = false.
Proof. intros H. unfold Rltb. destruct (Rlt_dec a b); [lra | reflexivity]. Qed.

Lemma Reqb_true (a b : R) : a = b -> Reqb a b = true.
Proof.
  intros H. unfold Reqb. destruct (Req_dec_T a b); [reflexivity | contradiction].
Qed.

Lemma Reqb_false (a b : R) : a <> b -> Reqb a b = false.
Proof.
  intros H. unfold Reqb. destruct (Req_dec_T a b); [contradiction | reflexivity].
Qed.

(** C10. Outside the closed interval [-1, 1] neither the interior formula
    nor an endpoint formula applies, and [dLegendre] returns its initial 0,
    for every order [n >= 1]. *)
Theorem dLegendre_outside (r : R) (n : Z) :
  (1 <= n)%Z -> r < -1 \/ 1 < r -> dLegendre r n = 0.
Proof.
  intros Hn Hr. unfold dLegendre.
  destruct (Z.eqb_spec n 0) as [E | _]; [lia |].
  destruct Hr as [Hr | Hr].
  - rewrite (Rltb_false (-1) r) by lra. simpl.
    rewrite (Reqb_false r (-1)), (Reqb_false r 1) by lra. reflexivity.
  - rewrite (Rltb_false r 1) by lra. rewrite andb_false_r.
    rewrite (Reqb_false r (-1)), (Reqb_false r 1) by lra. reflexivity.
Qed.

Lemma dLegendre_outside_witness : dLegendre 2 3 = 0.
Proof. apply dLegendre_outside; [lia | right; lra]. Defined.

(** ** VCJH correction functions *)

Lemma Legendre_m1_pred (n : Z) :
  (1 <= n)%Z -> Legendre (-1) (n - 1) = - powerRZ (-1) n.
Proof.
  intros Hn. rewrite Legendre_at_m1 by lia. apply powerRZ_m1_pred.
Qed.

Lemma Legendre_m1_succ (n : Z) :
  (0 <= n)%Z -> Legendre (-1) (n + 1) = - powerRZ (-1) n.
Proof.
  intros Hn. rewrite Legendre_at_m1 by lia. apply powerRZ_m1_succ.
Qed.

(** The left function at its own end, for an order of at least 1. *)
Lemma VCJH_1d_left_own_end (order : Z) (eta : R) :
  (1 <= order)%Z -> 0 <= eta -> VCJH_1d (-1) 0 order eta = 1.
Proof.
  intros Ho He. unfold VCJH_1d. simpl.
  rewrite Legendre_m1_pred, Legendre_m1_succ, Legendre_at_m1 by lia.
  set (p := powerRZ (-1) order).
  replace ((eta * - p + - p) / (1 + eta)) with (- p) by (field; lra).
  replace (p / 2 * (p - - p)) with (p * p) by field.
  apply powerRZ_m1_sqr.
Qed.

(** The left function at the far end, for an order of at least 1. *)
Lemma VCJH_1d_left_far_end (order : Z) (eta : R) :
  (1 <= order)%Z -> 0 <= eta -> VCJH_1d 1 0 order eta = 0.
Proof.
  intros Ho He. unfold VCJH_1d. simpl.
  rewrite !Legendre_at_1 by lia.
  replace ((eta * 1 + 1) / (1 + eta)) with 1 by (field; lra).
  ring.
Qed.

(** Order 0 with the blending constant 0, the one order-0 combination
    [compute_eta] lets through. *)
Lemma VCJH_1d_left_order0 :
  VCJH_1d (-1) 0 0 0 = 1 /\ VCJH_1d 1 0 0 0 = 0.
Proof.
  unfold VCJH_1d. simpl.
  rewrite !Legendre_0, !Legendre_1, !Legendre_neg by lia.
  split; field.
Qed.

(** The right function with the blending constant 0. *)
Lemma VCJH_1d_right_eta0 (order : Z) :
  (0 <= order)%Z ->
  VCJH_1d 1 1 order 0 = 1 /\ VCJH_1d (-1) 1 order 0 = 0.
Proof.
  intros Ho. unfold VCJH_1d. simpl. split.
  - rewrite (Legendre_at_1 order), (Legendre_at_1 (order + 1)) by lia.
    rewrite half_eq. field.
  - rewrite Legendre_m1_succ, (Legendre_at_m1 order) by lia.
    rewrite half_eq. field.
Qed.

(** Where the end conditions hold.  The left correction function is 1 at
    -1 and 0 at 1 for every order [>= 1] and every [eta >= 0], and at order
    0 for [eta = 0]; the right correction function is 1 at 1 and 0 at -1
    for every order [>= 0] when [eta = 0]. *)
Theorem VCJH_1d_endpoints (order : Z) (eta : R) :
  (0 <= order)%Z -> 0 <= eta ->
  ((1 <= order)%Z \/ eta = 0 ->
   VCJH_1d (-1) 0 order eta = 1 /\ VCJH_1d 1 0 order eta = 0)
  /\ (eta = 0 ->
      VCJH_1d 1 1 order eta = 1 /\ VCJH_1d (-1) 1 order eta = 0).
Proof.
  intros Ho He. split.
  - intros Hc.
    destruct (Z_le_dec 1 order) as [H1 | H1].
    + split; [apply VCJH_1d_left_own_end | apply VCJH_1d_left_far_end];
        assumption.
    + destruct Hc as [Hc | Hc]; [lia |].
      assert (order = 0%Z) by lia. subst order eta.
      exact VCJH_1d_left_order0.
  - intros E. subst eta. apply VCJH_1d_right_eta0. exact Ho.
Qed.

Lemma VCJH_1d_endpoints_witness :
  (VCJH_1d (-1) 0 2 0 = 1 /\ VCJH_1d 1 0 2 0 = 0)
  /\ (VCJH_1d 1 1 2 0 = 1 /\ VCJH_1d (-1) 1 2 0 = 0).
Proof.
  assert (Ho : (0 <= 2)%Z) by lia.
  assert (He : 0 <= 0) by lra.
  split.
  - apply (proj1 (VCJH_1d_endpoints 2 0 Ho He)). left. lia.
  - apply (proj2 (VCJH_1d_endpoints 2 0 Ho He)). reflexivity.
Defined.

Lemma VCJH_1d_left_order0_eta1 : VCJH_1d (-1) 0 0 1 = 3 / 4.
Proof.
  unfold VCJH_1d. simpl.
  rewrite Legendre_0, Legendre_1, Legendre_neg by lia.
  field.
Qed.

(** At order 0 with [eta = 1], a pair that [compute_eta] never returns,
    the left correction function is 3/4 at its own end. *)
Lemma VCJH_1d_order0_counterexample :
  ~ (forall (order : Z) (eta : R),
        (0 <= order)%Z -> 0 <= eta ->
        VCJH_1d (-1) 0 order eta = 1 /\ VCJH_1d 1 0 order eta = 0
        /\ VCJH_1d 1 1 order eta = 1 /\ VCJH_1d (-1) 1 order eta = 0).
Proof.
  intros H.
  destruct (H 0%Z 1 ltac:(lia) ltac:(lra)) as [H1 _].
  rewrite VCJH_1d_left_order0_eta1 in H1. lra.
Qed.

(** The right branch divides the whole sum by [1 + eta], where the left
    branch and both branches of [dVCJH_1d] divide the two outer terms only:
    with [eta = 1] at order 1 the right function is 3/4 at its own end. *)
Lemma VCJH_1d_right_order1_eta1 : VCJH_1d 1 1 1 1 = 3 / 4.
Proof.
  unfold VCJH_1d. simpl.
  rewrite Legendre_0, Legendre_1, (Legendre_at_1 2) by lia.
  rewrite half_eq. field.
Qed.

(** The right function at its two ends, for an order of at least 1: the
    values the grouping of the right branch gives. *)
Lemma VCJH_1d_right_ends (order : Z) (eta : R) :
  (1 <= order)%Z -> 0 <= eta ->
  VCJH_1d 1 1 order eta = (2 + eta) / (2 * (1 + eta))
  /\ VCJH_1d (-1) 1 order eta
     = - powerRZ (-1) order * eta / (2 * (1 + eta)).
Proof.
  intros Ho He. unfold VCJH_1d. simpl. split.
  - rewrite !Legendre_at_1 by lia. rewrite half_eq. field. lra.
  - rewrite Legendre_m1_pred, Legendre_m1_succ, Legendre_at_m1 by lia.
    rewrite half_eq. field. lra.
Qed.

(** C1 at order 1 with [eta = 1/2], the constant of the SD scheme at that
    order.  The left correction function meets both end conditions; the
    right correction function, whose branch divides the whole sum by
    [1 + eta], is 5/6 at its own end 1 and 1/6 at -1, where the mirrored
    grouping of the left branch gives 1 and 0. *)
Theorem VCJH_1d_right_branch_SD_order1 :
  (VCJH_1d (-1) 0 1 (1 / 2) = 1 /\ VCJH_1d 1 0 1 (1 / 2) = 0)
  /\ VCJH_1d 1 1 1 (1 / 2) = 5 / 6
  /\ VCJH_1d (-1) 1 1 (1 / 2) = 1 / 6
  /\ 0.5 * (Legendre 1 1
            + ((1 / 2) * Legendre 1 (1 - 1) + Legendre 1 (1 + 1))
              / (1 + 1 / 2)) = 1
  /\ 0.5 * (Legendre (-1) 1
            + ((1 / 2) * Legendre (-1) (1 - 1) + Legendre (-1) (1 + 1))
              / (1 + 1 / 2)) = 0.
Proof.
  split; [| split; [| split; [| split]]].
  - split; [apply VCJH_1d_left_own_end | apply VCJH_1d_left_far_end];
      (lia || lra).
  - rewrite (proj1 (VCJH_1d_right_ends 1 (1 / 2) ltac:(lia) ltac:(lra))).
    field.
  - rewrite (proj2 (VCJH_1d_right_ends 1 (1 / 2) ltac:(lia) ltac:(lra))).
    simpl. field.
  - rewrite !Legendre_at_1 by lia. rewrite half_eq. field.
  - rewrite !Legendre_at_m1 by lia. simpl. rewrite half_eq. field.
Qed.

Lemma dVCJH_1d_right_grouping (r : R) (n : Z) (eta : R) :
  (n <> 0)%Z ->
  dVCJH_1d r 1 n eta =
  0.5 * (dLegendre r n
         + (eta * dLegendre r (n - 1) + dLegendre r (n + 1)) / (1 + eta)).
Proof.
  intros Hn. unfold dVCJH_1d. simpl.
  destruct (Z.eqb_spec n 0); [contradiction | reflexivity].
Qed.

(** ** eval_gamma *)

(** The loop of [eval_gamma], started anywhere: with [len] steps left the
    remaining factors are [len], [len - 1], ..., 1. *)
Lemma eval_gamma_loop (in_n : Z) (len a : nat) (acc : R) :
  (Z.of_nat a + Z.of_nat len = in_n - 2)%Z ->
  fold_left (fun gamma_val i => gamma_val * IZR (in_n - 2 - Z.of_nat i))
    (seq a len) acc
  = acc * INR (fact len).
Proof.
  revert a acc. induction len as [| len IH]; intros a acc Hlen.
  - simpl. ring.
  - cbn [seq fold_left]. rewrite IH by lia.
    replace (in_n - 2 - Z.of_nat a)%Z with (Z.of_nat (S len)) by lia.
    rewrite <- INR_IZR_INZ.
    change (fact (S len)) with (S len * fact len)%nat.
    rewrite mult_INR. ring.
Qed.

Lemma eval_gamma_factorial (n : Z) :
  (1 <= n)%Z -> eval_gamma n = INR (fact (Z.to_nat (n - 1))).
Proof.
  intros Hn. unfold eval_gamma.
  destruct (Z.eqb_spec n 1) as [E | NE].
  - subst n. simpl. lra.
  - rewrite eval_gamma_loop by lia.
    replace (Z.to_nat (n - 1)) with (S (Z.to_nat (n - 2))) by lia.
    change (fact (S (Z.to_nat (n - 2))))
      with (S (Z.to_nat (n - 2)) * fact (Z.to_nat (n - 2)))%nat.
    rewrite mult_INR. f_equal.
    rewrite INR_IZR_INZ. f_equal. lia.
Qed.

Lemma eval_gamma_nonpositive (n : Z) :
  (n <= 0)%Z -> eval_gamma n = IZR (n - 1).
Proof.
  intros Hn. unfold eval_gamma.
  destruct (Z.eqb_spec n 1) as [E | NE]; [lia |].
  replace (Z.to_nat (n - 2)) with 0%nat by lia.
  reflexivity.
Qed.

(** C9. [eval_gamma] has a value at every integer: [(n-1)!] for [n >= 1]
    and [n - 1] for [n <= 0], where the loop runs no step.  It calls no
    [FatalError] and its loop counts up to a fixed bound. *)
Theorem eval_gamma_total (n : Z) :
  ((1 <= n)%Z -> eval_gamma n = INR (fact (Z.to_nat (n - 1))))
  /\ ((n <= 0)%Z -> eval_gamma n = IZR (n - 1)).
Proof.
  split; [apply eval_gamma_factorial | apply eval_gamma_nonpositive].
Qed.

Lemma eval_gamma_total_witness :
  eval_gamma 5 = INR (fact (Z.to_nat (5 - 1))) /\ eval_gamma 0 = IZR (0 - 1).
Proof.
  split.
  - apply (proj1 (eval_gamma_total 5)). lia.
  - apply (proj2 (eval_gamma_total 0)). lia.
Defined.

Example eval_gamma_5 : eval_gamma 5 = 24.
Proof. rewrite eval_gamma_factorial by lia. simpl. lra. Qed.

Example eval_gamma_0 : eval_gamma 0 = -1.
Proof. rewrite eval_gamma_nonpositive by lia. simpl. lra. Qed.

(** ** rs_to_ab *)

Lemma rs_to_ab_apex (p0 rs : point) :
  x rs = 1 -> rs_to_ab p0 rs = {| x := -1; y := y rs |}.
Proof.
  intros H. unfold rs_to_ab. rewrite Reqb_true by exact H. reflexivity.
Qed.

(** Away from [r = 1] the quotient is stored in [ab.y] and then
    overwritten; [ab.x] keeps the value the constructor gave it. *)
Lemma rs_to_ab_off_apex (p0 rs : point) :
  x rs <> 1 -> rs_to_ab p0 rs = {| x := x p0; y := y rs |}.
Proof.
  intros H. unfold rs_to_ab. rewrite Reqb_false by exact H. reflexivity.
Qed.

Lemma rs_to_ab_b (p0 rs : point) : y (rs_to_ab p0 rs) = y rs.
Proof. unfold rs_to_ab. destruct (Reqb (x rs) 1); reflexivity. Qed.

(** C2 at two inputs.  Whatever a default-constructed [point] holds, the
    first coordinate returned for (r, s) = (0, 0) and for (-1, 0) is that
    default value, so it is not both 2(1+0)/(1-0)-1 = 1 and
    2(1-1)/(1-0)-1 = -1. *)
Theorem rs_to_ab_first_coordinate_lost (p0 : point) :
  x (rs_to_ab p0 {| x := 0; y := 0 |}) = x p0
  /\ x (rs_to_ab p0 {| x := -1; y := 0 |}) = x p0
  /\ ~ (x (rs_to_ab p0 {| x := 0; y := 0 |}) = 2 * (1 + 0) / (1 - 0) - 1
        /\ x (rs_to_ab p0 {| x := -1; y := 0 |}) = 2 * (1 + -1) / (1 - 0) - 1).
Proof.
  rewrite !rs_to_ab_off_apex by (simpl; lra). simpl.
  split; [reflexivity | split; [reflexivity |]].
  intros [H1 H2]. rewrite H1 in H2. lra.
Qed.

(** ** compute_eta *)

Section ComputeEta.

Variables DG SD HU CPLUS : Z.
Variable factorial : Z -> R.

(** The tags are the members of one enumeration. *)
Hypothesis tags_distinct : NoDup [DG; SD; HU; CPLUS].

Let eta_of := compute_eta DG SD HU CPLUS factorial.
Let fatal_call := eta_fatal DG SD HU CPLUS.

Lemma tags_apart :
  DG <> SD /\ DG <> HU /\ DG <> CPLUS /\ SD <> HU /\ SD <> CPLUS
  /\ HU <> CPLUS.
Proof.
  pose proof tags_distinct as H.
  inversion H as [| ? ? H1 H2]; subst.
  inversion H2 as [| ? ? H3 H4]; subst.
  inversion H4 as [| ? ? H5 _]; subst.
  simpl in H1, H3, H5. intuition congruence.
Qed.

Lemma compute_eta_DG (order : Z) : eta_of DG order = Ok 0.
Proof.
  unfold eta_of, compute_eta, fatal_if. rewrite Z.eqb_refl.
  rewrite andb_false_r. reflexivity.
Qed.

Lemma compute_eta_SD (order : Z) :
  order <> 0%Z -> eta_of SD order = Ok (IZR order / IZR (order + 1)).
Proof.
  intros Ho. pose proof tags_apart as T.
  unfold eta_of, compute_eta, fatal_if.
  destruct (Z.eqb_spec order 0); [contradiction |]. simpl.
  destruct (Z.eqb_spec SD DG); [intuition congruence |].
  rewrite Z.eqb_refl, !Rmult_1_l. reflexivity.
Qed.

Lemma compute_eta_HU (order : Z) :
  order <> 0%Z -> eta_of HU order = Ok (IZR (order + 1) / IZR order).
Proof.
  intros Ho. pose proof tags_apart as T.
  unfold eta_of, compute_eta, fatal_if.
  destruct (Z.eqb_spec order 0); [contradiction |]. simpl.
  destruct (Z.eqb_spec HU DG); [intuition congruence |].
  destruct (Z.eqb_spec HU SD); [intuition congruence |].
  rewrite Z.eqb_refl, !Rmult_1_l. reflexivity.
Qed.

Lemma compute_eta_CPLUS_tabulated (order : Z) :
  (2 <= order <= 5)%Z -> exists eta, eta_of CPLUS order = Ok eta.
Proof.
  intros Ho. pose proof tags_apart as T.
  unfold eta_of, compute_eta, fatal_if, c_1d_table.
  destruct (Z.eqb_spec order 0); [lia |]. simpl.
  destruct (Z.eqb_spec CPLUS DG); [intuition congruence |].
  destruct (Z.eqb_spec CPLUS SD); [intuition congruence |].
  destruct (Z.eqb_spec CPLUS HU); [intuition congruence |].
  rewrite Z.eqb_refl.
  assert (C : order = 2%Z \/ order = 3%Z \/ order = 4%Z \/ order = 5%Z)
    by lia.
  destruct C as [-> | [-> | [-> | ->]]]; simpl; eexists; reflexivity.
Qed.

Lemma compute_eta_fatal (vcjh_scheme order : Z) :
  fatal_call vcjh_scheme order ->
  exists msg, eta_of vcjh_scheme order = Fatal msg.
Proof.
  pose proof tags_apart as T.
  unfold fatal_call, eta_fatal, eta_of, compute_eta, fatal_if,
    c_1d_table, FatalError.
  intros [[Ho Hs] | [[Hs Ho] | Hs]].
  - subst order. simpl.
    destruct (Z.eqb_spec vcjh_scheme DG); [contradiction |].
    simpl. eexists; reflexivity.
  - subst vcjh_scheme.
    destruct (Z.eqb_spec order 0); simpl.
    + destruct (Z.eqb_spec CPLUS DG); [intuition congruence |].
      simpl. eexists; reflexivity.
    + destruct (Z.eqb_spec CPLUS DG); [intuition congruence |].
      destruct (Z.eqb_spec CPLUS SD); [intuition congruence |].
      destruct (Z.eqb_spec CPLUS HU); [intuition congruence |].
      rewrite Z.eqb_refl.
      destruct (Z.eqb_spec order 2); [lia |].
      destruct (Z.eqb_spec order 3); [lia |].
      destruct (Z.eqb_spec order 4); [lia |].
      destruct (Z.eqb_spec order 5); [lia |].
      simpl. eexists; reflexivity.
  - destruct Hs as (H1 & H2 & H3 & H4).
    destruct (Z.eqb_spec vcjh_scheme DG); [contradiction |].
    destruct (Z.eqb_spec vcjh_scheme SD); [contradiction |].
    destruct (Z.eqb_spec vcjh_scheme HU); [contradiction |].
    destruct (Z.eqb_spec vcjh_scheme CPLUS); [contradiction |].
    destruct (order =? 0)%Z; simpl; eexists; reflexivity.
Qed.

Lemma compute_eta_value (vcjh_scheme order : Z) :
  ~ fatal_call vcjh_scheme order ->
  exists eta, eta_of vcjh_scheme order = Ok eta.
Proof.
  intros NF. unfold fatal_call, eta_fatal in NF.
  destruct (Z.eq_dec vcjh_scheme DG) as [-> | N1].
  { eexists. apply compute_eta_DG. }
  assert (Ho : order <> 0%Z) by tauto.
  destruct (Z.eq_dec vcjh_scheme SD) as [-> | N2].
  { eexists. apply compute_eta_SD. exact Ho. }
  destruct (Z.eq_dec vcjh_scheme HU) as [-> | N3].
  { eexists. apply compute_eta_HU. exact Ho. }
  destruct (Z.eq_dec vcjh_scheme CPLUS) as [-> | N4]; [| tauto].
  apply compute_eta_CPLUS_tabulated.
  destruct (Z_le_dec 2 order); destruct (Z_le_dec order 5); try lia;
    exfalso; apply NF; right; left; split; try reflexivity; lia.
Qed.

Lemma eta_fatal_dec (vcjh_scheme order : Z) :
  {fatal_call vcjh_scheme order} + {~ fatal_call vcjh_scheme order}.
Proof.
  unfold fatal_call, eta_fatal.
  destruct (Z.eq_dec order 0); destruct (Z.eq_dec vcjh_scheme DG);
    destruct (Z.eq_dec vcjh_scheme SD); destruct (Z.eq_dec vcjh_scheme HU);
    destruct (Z.eq_dec vcjh_scheme CPLUS);
    destruct (Z_le_dec 2 order); destruct (Z_le_dec order 5);
    solve [left; tauto | right; lia].
Qed.

(** C5. [compute_eta] ends in [FatalError] exactly when the order is 0
    with a scheme other than DG, or the scheme is CPlus with an order
    outside 2..5, or the tag is none of the four; every other call
    returns a value, which is 0 for DG at every order, order/(order+1)
    for SD and (order+1)/order for HU. *)
Theorem compute_eta_cases (vcjh_scheme order : Z) :
  ((exists msg, eta_of vcjh_scheme order = Fatal msg)
   <-> fatal_call vcjh_scheme order)
  /\ (~ fatal_call vcjh_scheme order ->
      exists eta, eta_of vcjh_scheme order = Ok eta)
  /\ eta_of DG order = Ok 0
  /\ (order <> 0%Z -> eta_of SD order = Ok (IZR order / IZR (order + 1)))
  /\ (order <> 0%Z -> eta_of HU order = Ok (IZR (order + 1) / IZR order)).
Proof.
  split; [| split; [| split; [| split]]].
  - split; [| apply compute_eta_fatal].
    intros [msg Hm].
    destruct (eta_fatal_dec vcjh_scheme order) as [F | NF]; [exact F |].
    destruct (compute_eta_value _ _ NF) as [eta He].
    rewrite He in Hm. discriminate.
  - apply compute_eta_value.
  - apply compute_eta_DG.
  - apply compute_eta_SD.
  - apply compute_eta_HU.
Qed.

End ComputeEta.

(** The theorem at the tags 0, 1, 2, 3 and the factorial of the naturals. *)
Lemma compute_eta_cases_witness :
  let fact_R := fun n : Z => INR (fact (Z.to_nat n)) in
  compute_eta 0 1 2 3 fact_R 0 3 = Ok 0
  /\ compute_eta 0 1 2 3 fact_R 1 3 = Ok (IZR 3 / IZR (3 + 1))
  /\ compute_eta 0 1 2 3 fact_R 2 3 = Ok (IZR (3 + 1) / IZR 3)
  /\ exists msg, compute_eta 0 1 2 3 fact_R 1 0 = Fatal msg.
Proof.
  intros fact_R.
  assert (D : NoDup [0; 1; 2; 3]%Z).
  { repeat constructor; simpl; intros H; repeat destruct H as [H | H];
      try discriminate H; exact H. }
  destruct (compute_eta_cases 0 1 2 3 fact_R D 1 3) as (_ & _ & H1 & H2 & H3).
  destruct (compute_eta_cases 0 1 2 3 fact_R D 1 0) as (H4 & _).
  split; [exact H1 |].
  split; [apply H2; discriminate |].
  split; [apply H3; discriminate |].
  apply H4. left. split; [reflexivity | discriminate].
Defined.

(** ** Lagrange *)

Lemma bind_Ok {A B : Type} (m : result A) (a : A) (k : A -> result B) :
  m = Ok a -> bind m k = k a.
Proof. intros ->. reflexivity. Qed.

Lemma vec_at_in_range (v : list R) (i : nat) :
  (i < List.length v)%nat -> vec_at v i = Ok (nth i v 0).
Proof.
  intros Hi. unfold vec_at. rewrite (nth_error_nth' v 0 Hi). reflexivity.
Qed.

(** The product the loop builds over a list of indices. *)
Lemma Lagrange_loop (x_lag : list R) (y0 : R) (mode : nat) (xm : R) :
  vec_at x_lag mode = Ok xm ->
  forall (idx : list nat) (lag : R),
    (forall i, In i idx -> (i < List.length x_lag)%nat) ->
    for_each
      (fun lag i =>
         if negb (i =? mode)%nat then
           xi <- vec_at x_lag i ;;
           xm <- vec_at x_lag mode ;;
           Ok (lag * ((y0 - xi) / (xm - xi)))
         else Ok lag)
      idx lag
    = Ok (fold_left
            (fun lag i =>
               if (i =? mode)%nat then lag
               else lag * ((y0 - nth i x_lag 0) / (xm - nth i x_lag 0)))
            idx lag).
Proof.
  intros Hm idx. induction idx as [| i idx IH]; intros lag Hin.
  - reflexivity.
  - cbn [for_each fold_left].
    assert (Hi : (i < List.length x_lag)%nat) by (apply Hin; left; reflexivity).
    destruct (Nat.eqb_spec i mode) as [E | NE]; cbn [negb bind].
    + apply IH. intros k Hk. apply Hin. right. exact Hk.
    + rewrite (bind_Ok _ _ _ (vec_at_in_range x_lag i Hi)).
      rewrite (bind_Ok _ _ _ Hm).
      apply IH. intros k Hk. apply Hin. right. exact Hk.
Qed.

(** A product of factors that are all 1. *)
Lemma fold_factors_one (f : nat -> R) (mode : nat) (idx : list nat) (lag : R) :
  (forall i, In i idx -> i <> mode -> f i = 1) ->
  fold_left (fun lag i => if (i =? mode)%nat then lag else lag * f i) idx lag
  = lag.
Proof.
  revert lag. induction idx as [| i idx IH]; intros lag H; [reflexivity |].
  cbn [fold_left]. destruct (Nat.eqb_spec i mode) as [E | NE].
  - apply IH. intros k Hk. apply H. right. exact Hk.
  - rewrite (H i) by (assumption || (left; reflexivity)).
    rewrite Rmult_1_r. apply IH. intros k Hk. apply H. right. exact Hk.
Qed.

(** Once the running product is 0 it stays 0. *)
Lemma fold_factors_from_zero (f : nat -> R) (mode : nat) (idx : list nat) :
  fold_left (fun lag i => if (i =? mode)%nat then lag else lag * f i) idx 0
  = 0.
Proof.
  induction idx as [| i idx IH]; [reflexivity |].
  cbn [fold_left]. destruct (i =? mode)%nat; [exact IH |].
  rewrite Rmult_0_l. exact IH.
Qed.

(** A product with a factor 0 among those taken. *)
Lemma fold_factors_zero (f : nat -> R) (mode k : nat) (idx : list nat)
    (lag : R) :
  In k idx -> k <> mode -> f k = 0 ->
  fold_left (fun lag i => if (i =? mode)%nat then lag else lag * f i) idx lag
  = 0.
Proof.
  revert lag. induction idx as [| i idx IH]; intros lag Hin Hk Hf.
  - contradiction.
  - cbn [fold_left]. destruct Hin as [E | Hin].
    + subst i. destruct (Nat.eqb_spec k mode); [contradiction |].
      rewrite Hf, Rmult_0_r. apply fold_factors_from_zero.
    + apply IH; assumption.
Qed.

Lemma Lagrange_product (x_lag : list R) (y0 : R) (mode : nat) :
  (mode < List.length x_lag)%nat ->
  Lagrange x_lag y0 mode
  = Ok (fold_left
          (fun lag i =>
             if (i =? mode)%nat then lag
             else lag * ((y0 - nth i x_lag 0)
                         / (nth mode x_lag 0 - nth i x_lag 0)))
          (seq 0 (List.length x_lag)) 1).
Proof.
  intros Hm. unfold Lagrange.
  apply (Lagrange_loop x_lag y0 mode (nth mode x_lag 0)).
  - apply vec_at_in_range. exact Hm.
  - intros i Hi. apply in_seq in Hi. lia.
Qed.

Example Lagrange_midpoint : Lagrange [0; 2] 1 0 = Ok (1 / 2).
Proof.
  rewrite Lagrange_product by (simpl; lia). simpl. f_equal. field.
Qed.

(** Without the node [x_lag[mode]] the first step that is taken reads
    outside the vector. *)
Example Lagrange_mode_out_of_range : Lagrange [0; 2] 1 2 = Undefined.
Proof. reflexivity. Qed.

(** C7. On nodes that are pairwise distinct, the [m]-th Lagrange polynomial
    is 1 at the [m]-th node and 0 at every other node. *)
Theorem Lagrange_exact (X : list R) (m : nat) :
  NoDup X -> (m < List.length X)%nat ->
  Lagrange X (nth m X 0) m = Ok 1
  /\ forall k, (k < List.length X)%nat -> k <> m ->
               Lagrange X (nth k X 0) m = Ok 0.
Proof.
  intros Hnd Hm. split.
  - rewrite Lagrange_product by exact Hm. f_equal.
    apply fold_factors_one. intros i Hi Hne.
    apply in_seq in Hi.
    assert (nth m X 0 <> nth i X 0).
    { intros E. apply Hne. symmetry.
      apply (proj1 (NoDup_nth X 0) Hnd m i); [exact Hm | lia | exact E]. }
    field. lra.
  - intros k Hk Hne. rewrite Lagrange_product by exact Hm. f_equal.
    apply (fold_factors_zero _ m k).
    + apply in_seq. lia.
    + exact Hne.
    + unfold Rdiv. rewrite Rminus_diag. apply Rmult_0_l.
Qed.

Lemma Lagrange_exact_witness :
  Lagrange [0; 1; 3] (nth 1%nat [0; 1; 3] 0) 1 = Ok 1
  /\ Lagrange [0; 1; 3] (nth 2%nat [0; 1; 3] 0) 1 = Ok 0.
Proof.
  assert (D : NoDup [0; 1; 3]).
  { repeat constructor; simpl; intros H; repeat destruct H as [H | H];
      try lra; exact H. }
  assert (L : (1 < List.length [0; 1; 3])%nat) by (simpl; lia).
  destruct (Lagrange_exact [0; 1; 3] 1 D L) as [H1 H2].
  split; [exact H1 |].
  apply H2; simpl; lia.
Defined.

(** ** The loop nest and the mode counter *)

Lemma loop_nest_S (n : nat) :
  loop_nest (S n) = loop_nest n ++ map (fun j => (n, j)) (seq 0 (n + 1)).
Proof.
  unfold loop_nest. rewrite seq_S, flat_map_app. simpl.
  rewrite app_nil_r. reflexivity.
Qed.

Lemma loop_nest_length (n : nat) :
  (2 * List.length (loop_nest n) = n * (n + 1))%nat.
Proof.
  induction n as [| n IH]; [reflexivity |].
  rewrite loop_nest_S, length_app, length_map, length_seq. lia.
Qed.

Lemma loop_nest_In (n k j : nat) :
  In (k, j) (loop_nest n) <-> (k < n /\ j <= k)%nat.
Proof.
  unfold loop_nest. rewrite in_flat_map. split.
  - intros [k' [Hk' Hin]]. apply in_seq in Hk'. apply in_map_iff in Hin.
    destruct Hin as [j' [E Hj']]. apply in_seq in Hj'.
    inversion E; subst. lia.
  - intros [Hk Hj]. exists k. split; [apply in_seq; lia |].
    apply in_map_iff. exists j. split; [reflexivity | apply in_seq; lia].
Qed.

Lemma loop_nest_head (n : nat) :
  nth_error (loop_nest (S n)) 0 = Some (0%nat, 0%nat).
Proof.
  induction n as [| n IH]; [reflexivity |].
  rewrite loop_nest_S, nth_error_app1; [exact IH |].
  pose proof (loop_nest_length (S n)). lia.
Qed.

Lemma count_step_fold (in_mode : Z) (found : nat -> nat -> R)
    (l : list (nat * nat)) (m0 : nat) (v0 : R) :
  fold_left (count_step in_mode found) l (m0, v0)
  = ((m0 + List.length l)%nat,
     if (in_mode <? Z.of_nat m0)%Z then v0
     else
       match nth_error (map (fun '(k, j) => ((k - j)%nat, j)) l)
               (Z.to_nat in_mode - m0) with
       | Some (i, j) => found i j
       | None => v0
       end).
Proof.
  revert m0 v0. induction l as [| [k j] l IH]; intros m0 v0.
  - cbn [fold_left List.length map]. rewrite Nat.add_0_r.
    destruct (Z.to_nat in_mode - m0)%nat; cbn [nth_error];
      destruct (in_mode <? Z.of_nat m0)%Z; reflexivity.
  - cbn [fold_left]. unfold count_step at 2. cbn [fst snd].
    rewrite IH. f_equal; [cbn [List.length]; lia |].
    destruct (Z.eqb_spec (Z.of_nat m0) in_mode) as [E | NE].
    + subst in_mode.
      destruct (Z.ltb_spec (Z.of_nat m0) (Z.of_nat (S m0))); [| lia].
      destruct (Z.ltb_spec (Z.of_nat m0) (Z.of_nat m0)); [lia |].
      replace (Z.to_nat (Z.of_nat m0) - m0)%nat with 0%nat by lia.
      reflexivity.
    + destruct (Z.ltb_spec in_mode (Z.of_nat m0)).
      * destruct (Z.ltb_spec in_mode (Z.of_nat (S m0))); [reflexivity | lia].
      * destruct (Z.ltb_spec in_mode (Z.of_nat (S m0))); [lia |].
        replace (Z.to_nat in_mode - m0)%nat
          with (S (Z.to_nat in_mode - S m0)) by lia.
        reflexivity.
Qed.

Lemma fold_left_ext {A B : Type} (f g : A -> B -> A) (l : list B) (a : A) :
  (forall s b, f s b = g s b) -> fold_left f l a = fold_left g l a.
Proof.
  intros H. revert a. induction l as [| b l IH]; intros a; [reflexivity |].
  simpl. rewrite H. apply IH.
Qed.

(** A sweep that counts every pair, from counter 0 and value 0. *)
Lemma count_sweep (in_mode : Z) (found : nat -> nat -> R) (kmax : nat) :
  fold_left (count_step in_mode found) (loop_nest kmax) (0%nat, 0)
  = (List.length (loop_nest kmax),
     at_mode (map (fun '(k, j) => ((k - j)%nat, j)) (loop_nest kmax))
       in_mode found 0).
Proof.
  rewrite count_step_fold. unfold at_mode.
  rewrite Nat.sub_0_r. reflexivity.
Qed.

(** The three triangle loops are such sweeps. *)
Lemma eval_dubiner_basis_2d_loop_eq (ab : point) (in_mode order : Z) :
  eval_dubiner_basis_2d_loop ab in_mode order
  = (List.length (tri_modes order),
     at_mode (tri_modes order) in_mode (dubiner_at ab) 0).
Proof.
  unfold eval_dubiner_basis_2d_loop, tri_modes.
  rewrite length_map, <- count_sweep.
  apply fold_left_ext. intros [mode v] [k j]. reflexivity.
Qed.

Lemma eval_dr_dubiner_basis_2d_loop_eq (ab : point) (in_mode order : Z) :
  eval_dr_dubiner_basis_2d_loop ab in_mode order
  = (List.length (tri_modes order),
     at_mode (tri_modes order) in_mode (dr_dubiner_at ab) 0).
Proof.
  unfold eval_dr_dubiner_basis_2d_loop, tri_modes.
  rewrite length_map, <- count_sweep.
  apply fold_left_ext. intros [mode v] [k j]. reflexivity.
Qed.

Lemma eval_ds_dubiner_basis_2d_loop_eq (ab : point) (in_mode order : Z) :
  eval_ds_dubiner_basis_2d_loop ab in_mode order
  = (List.length (tri_modes order),
     at_mode (tri_modes order) in_mode (ds_dubiner_at ab) 0).
Proof.
  unfold eval_ds_dubiner_basis_2d_loop, tri_modes.
  rewrite length_map, <- count_sweep.
  apply fold_left_ext. intros [mode v] [k j]. reflexivity.
Qed.

(** The number of modes of the triangle. *)
Lemma n_dof_tri (order : Z) :
  (0 <= order)%Z ->
  (((order + 1) * (order + 2)) ÷ 2 = ((order + 1) * (order + 2)) / 2)%Z.
Proof. intros H. apply Z.quot_div_nonneg; nia. Qed.

Lemma tri_modes_length (order : Z) :
  (0 <= order)%Z ->
  Z.of_nat (List.length (tri_modes order))
  = (((order + 1) * (order + 2)) ÷ 2)%Z.
Proof.
  intros Ho. rewrite n_dof_tri by exact Ho.
  unfold tri_modes. rewrite length_map.
  pose proof (loop_nest_length (Z.to_nat (order + 1))) as L.
  apply Z.div_unique_exact; [lia |].
  nia.
Qed.

(** ** Dubiner basis *)

Lemma n_dof_tri_pos (order : Z) :
  (0 <= order)%Z -> (0 < ((order + 1) * (order + 2)) ÷ 2)%Z.
Proof.
  intros Ho. rewrite n_dof_tri by exact Ho.
  apply Z.div_str_pos. nia.
Qed.

(** Each function, for a mode the guard lets through, in terms of the
    degree pair its sweep stops at. *)
Lemma eval_dubiner_basis_2d_at (p0 rs : point) (in_mode order : Z) :
  (in_mode < ((order + 1) * (order + 2)) ÷ 2)%Z ->
  eval_dubiner_basis_2d p0 rs in_mode order
  = Ok (at_mode (tri_modes order) in_mode (dubiner_at (rs_to_ab p0 rs)) 0).
Proof.
  intros Hm. unfold eval_dubiner_basis_2d.
  destruct (Z.ltb_spec in_mode (((order + 1) * (order + 2)) ÷ 2)); [| lia].
  rewrite eval_dubiner_basis_2d_loop_eq. reflexivity.
Qed.

Lemma eval_dr_dubiner_basis_2d_at (p0 rs : point) (in_mode order : Z) :
  (in_mode < ((order + 1) * (order + 2)) ÷ 2)%Z ->
  eval_dr_dubiner_basis_2d p0 rs in_mode order
  = Ok (at_mode (tri_modes order) in_mode (dr_dubiner_at (rs_to_ab p0 rs)) 0).
Proof.
  intros Hm. unfold eval_dr_dubiner_basis_2d.
  destruct (Z.ltb_spec in_mode (((order + 1) * (order + 2)) ÷ 2)); [| lia].
  rewrite eval_dr_dubiner_basis_2d_loop_eq. reflexivity.
Qed.

Lemma eval_ds_dubiner_basis_2d_at (p0 rs : point) (in_mode order : Z) :
  (in_mode < ((order + 1) * (order + 2)) ÷ 2)%Z ->
  eval_ds_dubiner_basis_2d p0 rs in_mode order
  = Ok (at_mode (tri_modes order) in_mode (ds_dubiner_at (rs_to_ab p0 rs)) 0).
Proof.
  intros Hm. unfold eval_ds_dubiner_basis_2d.
  destruct (Z.ltb_spec in_mode (((order + 1) * (order + 2)) ÷ 2)); [| lia].
  rewrite eval_ds_dubiner_basis_2d_loop_eq. reflexivity.
Qed.

(** At and above [n_dof] the guard ends the call. *)
Lemma eval_dubiner_basis_2d_invalid_mode (p0 rs : point) (in_mode order : Z) :
  (((order + 1) * (order + 2)) ÷ 2 <= in_mode)%Z ->
  eval_dubiner_basis_2d p0 rs in_mode order
  = Fatal "Invalid mode when evaluating Dubiner basis.".
Proof.
  intros Hm. unfold eval_dubiner_basis_2d.
  destruct (Z.ltb_spec in_mode (((order + 1) * (order + 2)) ÷ 2)); [lia |].
  reflexivity.
Qed.

Lemma tri_modes_head (order : Z) :
  (0 <= order)%Z -> nth_error (tri_modes order) 0 = Some (0%nat, 0%nat).
Proof.
  intros Ho. unfold tri_modes.
  replace (Z.to_nat (order + 1)) with (S (Z.to_nat order)) by lia.
  rewrite nth_error_map, loop_nest_head. reflexivity.
Qed.

Lemma eval_gamma_1 : eval_gamma 1 = 1.
Proof. reflexivity. Qed.

Lemma eval_gamma_2 : eval_gamma 2 = 1.
Proof. unfold eval_gamma. simpl. reflexivity. Qed.

Lemma eval_gamma_3 : eval_gamma 3 = 2.
Proof. unfold eval_gamma. simpl. ring. Qed.

(** The two order-0 Jacobi factors of mode 0. *)
Lemma eval_jacobi_0_0_0 (r : R) : eval_jacobi r 0 0 0 = sqrt (1 / 2).
Proof.
  cbn [eval_jacobi]. cbn [Z.add Z.opp Z.sub Z.pos_sub].
  rewrite eval_gamma_1, eval_gamma_2. f_equal. simpl. field.
Qed.

Lemma eval_jacobi_1_0_0 (r : R) : eval_jacobi r 1 0 0 = sqrt (1 / 2).
Proof.
  cbn [eval_jacobi].
  change (1 + 0 + 2)%Z with 3%Z. change (1 + 1)%Z with 2%Z.
  change (0 + 1)%Z with 1%Z. change (- (1) - 0 - 1)%Z with (-2)%Z.
  rewrite eval_gamma_1, eval_gamma_2, eval_gamma_3. f_equal. simpl. field.
Qed.

Lemma dubiner_at_0_0 (ab : point) : dubiner_at ab 0 0 = sqrt 2 / 2.
Proof.
  unfold dubiner_at.
  change (2 * Z.of_nat 0 + 1)%Z with 1%Z.
  rewrite eval_jacobi_0_0_0, eval_jacobi_1_0_0.
  change (powerRZ (1 - y ab) (Z.of_nat 0)) with 1.
  rewrite Rmult_1_r, Rmult_assoc, sqrt_sqrt by lra. field.
Qed.

(** C3, as the code has it.  For every truncation order [>= 0] and every
    point, mode 0 of the Dubiner basis is the constant sqrt(2)/2: the
    product of sqrt(2) with the two order-0 Jacobi factors, sqrt(1/2)
    each. *)
Theorem eval_dubiner_basis_2d_mode0 (p0 rs : point) (order : Z) :
  (0 <= order)%Z ->
  eval_dubiner_basis_2d p0 rs 0 order = Ok (sqrt 2 / 2).
Proof.
  intros Ho.
  rewrite eval_dubiner_basis_2d_at by (apply n_dof_tri_pos; exact Ho).
  unfold at_mode. cbn [Z.ltb Z.compare Z.to_nat].
  rewrite tri_modes_head by exact Ho.
  rewrite dubiner_at_0_0. reflexivity.
Qed.

Lemma eval_dubiner_basis_2d_mode0_witness :
  eval_dubiner_basis_2d (mkpoint 0 0) (mkpoint (-1) (-1)) 0 2
  = Ok (sqrt 2 / 2).
Proof. apply eval_dubiner_basis_2d_mode0. lia. Defined.

(** C3 as stated fails: at order 0 and the vertex (-1, -1) mode 0 is
    sqrt(2)/2, which is not sqrt(2). *)
Lemma eval_dubiner_basis_2d_mode0_counterexample :
  eval_dubiner_basis_2d (mkpoint 0 0) (mkpoint (-1) (-1)) 0 0 <> Ok (sqrt 2).
Proof.
  rewrite eval_dubiner_basis_2d_mode0 by lia.
  intros H. injection H as H.
  assert (0 < sqrt 2) by (apply sqrt_lt_R0; lra).
  lra.
Qed.

(** ** The square sweep *)

Lemma fold_left_filter {A B : Type} (c : B -> bool) (g : A -> B -> A)
    (l : list B) (a : A) :
  fold_left (fun s b => if c b then g s b else s) l a
  = fold_left g (filter c l) a.
Proof.
  revert a. induction l as [| b l IH]; intros a; [reflexivity |].
  cbn [fold_left filter]. destruct (c b); [cbn [fold_left] |]; apply IH.
Qed.

Lemma square_modes_eq (order : Z) :
  square_modes order
  = map (fun '(k, j) => ((k - j)%nat, j))
      (filter (in_square order)
         (loop_nest (Z.to_nat (order * order + 1)))).
Proof.
  unfold square_modes. rewrite filter_map_swap. f_equal.
  apply filter_ext. intros [k j]. reflexivity.
Qed.

(** A sweep that counts the pairs inside the square only. *)
Lemma square_sweep (in_mode order : Z) (found : nat -> nat -> R) :
  fold_left
    (fun st kj => if in_square order kj then count_step in_mode found st kj
                  else st)
    (loop_nest (Z.to_nat (order * order + 1))) (0%nat, 0)
  = (List.length (square_modes order),
     at_mode (square_modes order) in_mode found 0).
Proof.
  rewrite fold_left_filter, count_step_fold, square_modes_eq, length_map.
  unfold at_mode. rewrite Nat.sub_0_r. reflexivity.
Qed.

Lemma exponential_filter_loop_eq (std_pow : R -> R -> R)
    (in_mode order : Z) (exponent : R) :
  exponential_filter_loop std_pow in_mode order exponent
  = (List.length (square_modes order),
     at_mode (square_modes order) in_mode
       (fun i j =>
          exp (IZR (-1)
               * std_pow (IZR (Z.of_nat (i + j))
                          / IZR ((order + 1) * (order + 1))) exponent))
       0).
Proof.
  unfold exponential_filter_loop. rewrite <- square_sweep.
  apply fold_left_ext. intros [mode v] [k j].
  unfold in_square, count_step. cbn [fst snd].
  destruct ((Z.of_nat (k - j) <=? order)%Z && (Z.of_nat j <=? order)%Z);
    reflexivity.
Qed.

Lemma for_each_pure {S I : Type} (body : S -> I -> result S)
    (g : S -> I -> S) (l : list I) (s : S) :
  (forall s i, body s i = Ok (g s i)) ->
  for_each body l s = Ok (fold_left g l s).
Proof.
  intros H. revert s. induction l as [| i l IH]; intros s; [reflexivity |].
  cbn [for_each fold_left]. rewrite H. cbn [bind]. apply IH.
Qed.

(** With both coordinates present every step of the loop goes through. *)
Lemma Legendre2D_hierarchical_loop_eq (in_mode : Z) (x0 y0 : R)
    (rest : list R) (order : Z) :
  Legendre2D_hierarchical_loop in_mode (x0 :: y0 :: rest) order
  = Ok (List.length (square_modes order),
        at_mode (square_modes order) in_mode
          (fun i j => Legendre x0 (Z.of_nat i) * Legendre y0 (Z.of_nat j)) 0).
Proof.
  unfold Legendre2D_hierarchical_loop. rewrite <- square_sweep.
  apply for_each_pure. intros [mode v] [k j].
  unfold in_square, count_step. cbn [fst snd].
  destruct ((Z.of_nat (k - j) <=? order)%Z && (Z.of_nat j <=? order)%Z);
    [| reflexivity].
  destruct (Z.of_nat mode =? in_mode)%Z; reflexivity.
Qed.

(** Below 0 no step matches, whatever the vector holds. *)
Lemma Legendre2D_hierarchical_loop_neg (in_mode : Z) (in_loc : list R)
    (order : Z) :
  (in_mode < 0)%Z ->
  Legendre2D_hierarchical_loop in_mode in_loc order
  = Ok (List.length (square_modes order), 0).
Proof.
  intros Hneg. unfold Legendre2D_hierarchical_loop.
  rewrite (for_each_pure _
             (fun st kj => if in_square order kj
                           then count_step in_mode (fun _ _ => 0) st kj
                           else st)).
  - rewrite square_sweep. unfold at_mode.
    destruct (Z.ltb_spec in_mode 0); [reflexivity | lia].
  - intros [mode v] [k j]. unfold in_square, count_step. cbn [fst snd].
    destruct ((Z.of_nat (k - j) <=? order)%Z && (Z.of_nat j <=? order)%Z);
      [| reflexivity].
    destruct (Z.eqb_spec (Z.of_nat mode) in_mode); [lia | reflexivity].
Qed.

Lemma at_mode_neg (modes : list (nat * nat)) (in_mode : Z)
    (found : nat -> nat -> R) (dflt : R) :
  (in_mode < 0)%Z -> at_mode modes in_mode found dflt = dflt.
Proof.
  intros H. unfold at_mode.
  destruct (Z.ltb_spec in_mode 0); [reflexivity | lia].
Qed.

(** C8. A negative mode passes the guard [in_mode < n_dof] of all five
    functions when the order is [>= 0]; the counter starts at 0 and only
    grows, so no step matches and each function returns its initial 0. *)
Theorem negative_mode_returns_zero (p0 rs : point) (std_pow : R -> R -> R)
    (in_loc : list R) (exponent : R) (in_mode order : Z) :
  (in_mode < 0)%Z -> (0 <= order)%Z ->
  eval_dubiner_basis_2d p0 rs in_mode order = Ok 0
  /\ eval_dr_dubiner_basis_2d p0 rs in_mode order = Ok 0
  /\ eval_ds_dubiner_basis_2d p0 rs in_mode order = Ok 0
  /\ Legendre2D_hierarchical in_mode in_loc order = Ok 0
  /\ exponential_filter std_pow in_mode order exponent = Ok 0.
Proof.
  intros Hneg Ho.
  pose proof (n_dof_tri_pos order Ho) as Htri.
  assert (Hsq : (in_mode < (order + 1) * (order + 1))%Z) by nia.
  repeat split.
  - rewrite eval_dubiner_basis_2d_at by lia.
    rewrite at_mode_neg by exact Hneg. reflexivity.
  - rewrite eval_dr_dubiner_basis_2d_at by lia.
    rewrite at_mode_neg by exact Hneg. reflexivity.
  - rewrite eval_ds_dubiner_basis_2d_at by lia.
    rewrite at_mode_neg by exact Hneg. reflexivity.
  - unfold Legendre2D_hierarchical, fatal_if.
    destruct (Z.ltb_spec in_mode ((order + 1) * (order + 1))); [| lia].
    cbn [negb bind].
    rewrite Legendre2D_hierarchical_loop_neg by exact Hneg. reflexivity.
  - unfold exponential_filter, fatal_if.
    destruct (Z.ltb_spec in_mode ((order + 1) * (order + 1))); [| lia].
    cbn [negb bind].
    rewrite exponential_filter_loop_eq, at_mode_neg by exact Hneg.
    reflexivity.
Qed.

Lemma negative_mode_returns_zero_witness :
  eval_dubiner_basis_2d (mkpoint 0 0) (mkpoint 0 0) (-1) 2 = Ok 0
  /\ eval_dr_dubiner_basis_2d (mkpoint 0 0) (mkpoint 0 0) (-1) 2 = Ok 0
  /\ eval_ds_dubiner_basis_2d (mkpoint 0 0) (mkpoint 0 0) (-1) 2 = Ok 0
  /\ Legendre2D_hierarchical (-1) [0; 0] 2 = Ok 0
  /\ exponential_filter Rpower (-1) 2 1 = Ok 0.
Proof.
  apply (negative_mode_returns_zero (mkpoint 0 0) (mkpoint 0 0) Rpower
           [0; 0] 1 (-1) 2); lia.
Defined.

(** ** Counting the modes *)

Lemma loop_nest_NoDup (n : nat) : NoDup (loop_nest n).
Proof.
  induction n as [| n IH]; [constructor |].
  rewrite loop_nest_S. apply NoDup_app.
  - exact IH.
  - apply NoDup_map_NoDup_ForallPairs; [| apply seq_NoDup].
    intros a b _ _ E. inversion E. reflexivity.
  - intros [k j] H1 H2. apply loop_nest_In in H1.
    apply in_map_iff in H2. destruct H2 as [j' [E _]].
    inversion E. lia.
Qed.

Lemma square_modes_NoDup (order : Z) : NoDup (square_modes order).
Proof.
  rewrite square_modes_eq.
  apply NoDup_map_NoDup_ForallPairs;
    [| apply NoDup_filter, loop_nest_NoDup].
  intros [k j] [k' j'] H1 H2 E.
  apply filter_In in H1. destruct H1 as [H1 _]. apply loop_nest_In in H1.
  apply filter_In in H2. destruct H2 as [H2 _]. apply loop_nest_In in H2.
  inversion E. subst j'. f_equal. lia.
Qed.

(** The pairs the square sweep counts: those of the square that lie on a
    diagonal the outer loop reaches. *)
Lemma square_modes_In (order : Z) (i j : nat) :
  (0 <= order)%Z ->
  In (i, j) (square_modes order)
  <-> (Z.of_nat i <= order /\ Z.of_nat j <= order
       /\ Z.of_nat (i + j) <= order * order)%Z.
Proof.
  intros Ho. rewrite square_modes_eq, in_map_iff. split.
  - intros [[k j'] [E H]]. inversion E; subst. clear E.
    apply filter_In in H. destruct H as [H C].
    apply loop_nest_In in H. unfold in_square in C. cbn [fst snd] in C.
    apply andb_prop in C. destruct C as [C1 C2].
    apply Z.leb_le in C1, C2. nia.
  - intros (Hi & Hj & Hk). exists ((i + j)%nat, j). split.
    + f_equal. lia.
    + apply filter_In. split.
      * apply loop_nest_In. nia.
      * unfold in_square. cbn [fst snd].
        replace (i + j - j)%nat with i by lia.
        apply andb_true_intro. split; apply Z.leb_le; assumption.
Qed.

Lemma list_prod_NoDup {A B : Type} (l : list A) (l' : list B) :
  NoDup l -> NoDup l' -> NoDup (list_prod l l').
Proof.
  intros Hl Hl'. induction Hl as [| a l Ha Hl IH]; [constructor |].
  cbn [list_prod]. apply NoDup_app.
  - apply NoDup_map_NoDup_ForallPairs; [| exact Hl'].
    intros b b' _ _ E. inversion E. reflexivity.
  - exact IH.
  - intros [a' b] H1 H2. apply in_map_iff in H1.
    destruct H1 as [b' [E _]]. inversion E; subst.
    apply in_prod_iff in H2. destruct H2 as [H2 _]. contradiction.
Qed.

(** For the orders 0 and 2 and above, the outer loop of the square sweep
    reaches every diagonal and the sweep counts (order+1)^2 modes. *)
Lemma square_modes_count (order : Z) :
  order = 0%Z \/ (2 <= order)%Z ->
  Z.of_nat (List.length (square_modes order))
  = ((order + 1) * (order + 1))%Z.
Proof.
  intros Ho.
  set (side := seq 0 (Z.to_nat (order + 1))).
  assert (P : Permutation (square_modes order)
                (list_prod side side)).
  { apply NoDup_Permutation.
    - apply square_modes_NoDup.
    - apply list_prod_NoDup; apply seq_NoDup.
    - intros [i j]. rewrite square_modes_In by lia.
      rewrite in_prod_iff. unfold side. rewrite !in_seq. nia. }
  rewrite (Permutation_length P), length_prod.
  unfold side. rewrite length_seq. nia.
Qed.

(** The triangle sweep counts (order+1)(order+2)/2 modes: the value of the
    counter when the loops of [eval_dubiner_basis_2d] end. *)
Lemma tri_sweep_count (ab : point) (in_mode order : Z) :
  (0 <= order)%Z ->
  Z.of_nat (fst (eval_dubiner_basis_2d_loop ab in_mode order))
  = (((order + 1) * (order + 2)) ÷ 2)%Z.
Proof.
  intros Ho. rewrite eval_dubiner_basis_2d_loop_eq. cbn [fst].
  apply tri_modes_length. exact Ho.
Qed.

(** For a valid mode the three Dubiner functions stop at one and the same
    degree pair. *)
Lemma dubiner_modes_agree (p0 rs : point) (in_mode order : Z) :
  (0 <= in_mode < ((order + 1) * (order + 2)) ÷ 2)%Z -> (0 <= order)%Z ->
  exists i j : nat,
    nth_error (tri_modes order) (Z.to_nat in_mode) = Some (i, j)
    /\ eval_dubiner_basis_2d p0 rs in_mode order
       = Ok (dubiner_at (rs_to_ab p0 rs) i j)
    /\ eval_dr_dubiner_basis_2d p0 rs in_mode order
       = Ok (dr_dubiner_at (rs_to_ab p0 rs) i j)
    /\ eval_ds_dubiner_basis_2d p0 rs in_mode order
       = Ok (ds_dubiner_at (rs_to_ab p0 rs) i j).
Proof.
  intros Hm Ho.
  destruct (nth_error (tri_modes order) (Z.to_nat in_mode))
    as [[i j] |] eqn:E.
  - exists i, j. split; [reflexivity |].
    rewrite eval_dubiner_basis_2d_at, eval_dr_dubiner_basis_2d_at,
      eval_ds_dubiner_basis_2d_at by lia.
    unfold at_mode. rewrite E.
    destruct (Z.ltb_spec in_mode 0); [lia |].
    repeat split; reflexivity.
  - apply nth_error_None in E.
    pose proof (tri_modes_length order Ho). lia.
Qed.

(** C4 at order 1.  The square sweep stops at diagonal [k = 1*1] and counts
    the three pairs (0,0), (1,0), (0,1) where [n_dof] is 4: mode 3 passes
    the guard, no step matches it, and [Legendre2D_hierarchical] returns
    its initial 0 at every point, where the pair (1,1) would give
    [Legendre x 1 * Legendre y 1 = x * y]. *)
Theorem Legendre2D_hierarchical_order1_mode3 (x0 y0 : R) :
  square_modes 1 = [(0, 0); (1, 0); (0, 1)]%nat
  /\ Z.of_nat (List.length (square_modes 1)) <> ((1 + 1) * (1 + 1))%Z
  /\ Legendre2D_hierarchical_loop 3 [x0; y0] 1 = Ok (3%nat, 0)
  /\ Legendre2D_hierarchical 3 [x0; y0] 1 = Ok 0
  /\ Legendre x0 1 * Legendre y0 1 = x0 * y0.
Proof.
  assert (M : square_modes 1 = [(0, 0); (1, 0); (0, 1)]%nat) by reflexivity.
  split; [exact M |].
  split; [rewrite M; discriminate |].
  assert (L : Legendre2D_hierarchical_loop 3 [x0; y0] 1 = Ok (3%nat, 0)).
  { rewrite Legendre2D_hierarchical_loop_eq, M. reflexivity. }
  split; [exact L |].
  split.
  - unfold Legendre2D_hierarchical. rewrite L. reflexivity.
  - rewrite !Legendre_1. reflexivity.
Qed.

(** * Part III: further properties *)

(** ** Legendre: recurrence and parity *)

(** The three-term recurrence, which also holds at order 1. *)
Lemma Legendre_recurrence (r : R) (n : Z) :
  (1 <= n)%Z ->
  IZR n * Legendre r n
  = IZR (2 * n - 1) * r * Legendre r (n - 1)
    - IZR (n - 1) * Legendre r (n - 2).
Proof.
  intros Hn. destruct (Z.eq_dec n 1) as [-> | Hne].
  - simpl. rewrite Legendre_1, Legendre_0, Legendre_neg by lia. ring.
  - rewrite (Legendre_rec r n) by lia. field. apply IZR_neq0. lia.
Qed.

Lemma Legendre_opp (r : R) (n : Z) :
  (0 <= n)%Z -> Legendre (- r) n = powerRZ (-1) n * Legendre r n.
Proof.
  revert n. apply Z_two_step_ind.
  - rewrite !Legendre_0. simpl. ring.
  - rewrite !Legendre_1. simpl. ring.
  - intros n Hn IH1 IH2.
    rewrite (Legendre_rec (- r)), (Legendre_rec r), IH1, IH2 by assumption.
    rewrite powerRZ_m1_pred, powerRZ_m1_pred2.
    field. apply IZR_neq0. lia.
Qed.

(** X1. [Legendre] has the parity of its order: for every [n >= 0] and
    every [r], [Legendre (-r) n = (-1)^n * Legendre r n]. *)
Theorem Legendre_parity (r : R) (n : Z) :
  (0 <= n)%Z -> Legendre (- r) n = powerRZ (-1) n * Legendre r n.
Proof. apply Legendre_opp. Qed.

Lemma Legendre_parity_witness :
  Legendre (- 2) 3 = powerRZ (-1) 3 * Legendre 2 3.
Proof. apply Legendre_parity. lia. Defined.

(** ** dLegendre: its branches *)

Lemma dLegendre_0 (r : R) : dLegendre r 0 = 0.
Proof. reflexivity. Qed.

Lemma dLegendre_interior (r : R) (n : Z) :
  n <> 0%Z -> -1 < r < 1 ->
  dLegendre r n
  = IZR n * (r * Legendre r n - Legendre r (n - 1)) / (r * r - 1).
Proof.
  intros Hn [H1 H2]. unfold dLegendre.
  destruct (Z.eqb_spec n 0); [contradiction |].
  rewrite (Rltb_true (-1) r), (Rltb_true r 1) by assumption. reflexivity.
Qed.

Lemma dLegendre_at_1 (n : Z) :
  n <> 0%Z -> dLegendre 1 n = IZR n * (IZR n + 1) / 2.
Proof.
  intros Hn. unfold dLegendre.
  destruct (Z.eqb_spec n 0); [contradiction |].
  rewrite (Rltb_false 1 1) by lra. rewrite andb_false_r.
  rewrite (Reqb_false 1 (-1)) by lra. rewrite (Reqb_true 1 1) by reflexivity.
  rewrite half_eq. field.
Qed.

Lemma dLegendre_at_m1 (n : Z) :
  n <> 0%Z ->
  dLegendre (-1) n = powerRZ (-1) (n - 1) * (IZR n * (IZR n + 1) / 2).
Proof.
  intros Hn. unfold dLegendre.
  destruct (Z.eqb_spec n 0); [contradiction |].
  rewrite (Rltb_false (-1) (-1)) by lra. cbn [andb].
  rewrite (Reqb_true (-1) (-1)) by reflexivity.
  rewrite (Reqb_false (-1) 1) by lra.
  rewrite half_eq. field.
Qed.

Lemma dLegendre_exterior (r : R) (n : Z) :
  r < -1 \/ 1 < r -> dLegendre r n = 0.
Proof.
  intros Hr. unfold dLegendre.
  destruct (Z.eqb_spec n 0); [reflexivity |].
  destruct Hr as [Hr | Hr].
  - rewrite (Rltb_false (-1) r) by lra. cbn [andb].
    rewrite (Reqb_false r (-1)), (Reqb_false r 1) by lra. reflexivity.
  - rewrite (Rltb_false r 1) by lra. rewrite andb_false_r.
    rewrite (Reqb_false r (-1)), (Reqb_false r 1) by lra. reflexivity.
Qed.

(** The position of a point relative to the interval of [dLegendre]. *)
Lemma interval_cases (r : R) :
  -1 < r < 1 \/ r = -1 \/ r = 1 \/ (r < -1 \/ 1 < r).
Proof.
  destruct (Rtotal_order r (-1)) as [H | [H | H]];
    destruct (Rtotal_order r 1) as [K | [K | K]]; try lra; tauto.
Qed.

Lemma dLegendre_opp (r : R) (n : Z) :
  (0 <= n)%Z -> dLegendre (- r) n = - powerRZ (-1) n * dLegendre r n.
Proof.
  intros Hn. destruct (Z.eq_dec n 0) as [-> | Hne].
  { rewrite !dLegendre_0. ring. }
  destruct (interval_cases r) as [Hi | [-> | [-> | He]]].
  - rewrite !dLegendre_interior by (assumption || lra).
    rewrite !Legendre_opp by lia. rewrite powerRZ_m1_pred.
    field. nra.
  - replace (- -1) with 1 by ring.
    rewrite dLegendre_at_1, dLegendre_at_m1 by assumption.
    rewrite powerRZ_m1_pred.
    pose proof (powerRZ_m1_sqr n) as Q.
    replace (- powerRZ (-1) n * (- powerRZ (-1) n * (IZR n * (IZR n + 1) / 2)))
      with (powerRZ (-1) n * powerRZ (-1) n * (IZR n * (IZR n + 1) / 2))
      by ring.
    rewrite Q. ring.
  - rewrite dLegendre_at_1, dLegendre_at_m1 by assumption.
    rewrite powerRZ_m1_pred. ring.
  - rewrite !dLegendre_exterior by (assumption || lra). ring.
Qed.

(** X2. [dLegendre] has the parity opposite to its order at every point,
    the endpoints and the exterior included: for [n >= 0],
    [dLegendre (-r) n = - (-1)^n * dLegendre r n]. *)
Theorem dLegendre_parity (r : R) (n : Z) :
  (0 <= n)%Z -> dLegendre (- r) n = - powerRZ (-1) n * dLegendre r n.
Proof. apply dLegendre_opp. Qed.

Lemma dLegendre_parity_witness :
  dLegendre (- (1 / 2)) 2 = - powerRZ (-1) 2 * dLegendre (1 / 2) 2.
Proof. apply dLegendre_parity. lia. Defined.

(** ** dLegendre is the derivative of Legendre *)

Lemma nat_two_step_ind (P : nat -> Prop) :
  P 0%nat -> P 1%nat ->
  (forall k, P k -> P (S k) -> P (S (S k))) ->
  forall k, P k.
Proof.
  intros H0 H1 Hstep k.
  assert (H : P k /\ P (S k)).
  { induction k as [| k [IH0 IH1]]; [split; assumption |].
    split; [exact IH1 | apply Hstep; assumption]. }
  exact (proj1 H).
Qed.

(** The derivative of one step of the three-term recursion. *)
Lemma derivable_pt_lim_three_term (f g : R -> R) (a b c t0 l1 l2 : R) :
  derivable_pt_lim f t0 l1 ->
  derivable_pt_lim g t0 l2 ->
  derivable_pt_lim (fun t => (a * t * f t - b * g t) / c) t0
    ((a * (f t0 + t0 * l1) - b * l2) / c).
Proof.
  intros Hf Hg.
  pose proof (derivable_pt_lim_mult id f t0 1 l1
                (derivable_pt_lim_id t0) Hf) as D1.
  pose proof (derivable_pt_lim_scal _ a _ _ D1) as D2.
  pose proof (derivable_pt_lim_scal _ b _ _ Hg) as D3.
  pose proof (derivable_pt_lim_minus _ _ _ _ _ D2 D3) as D4.
  pose proof (derivable_pt_lim_div_scal _ _ _ c D4) as D5.
  replace ((a * (f t0 + t0 * l1) - b * l2) / c)
    with ((a * (1 * f t0 + id t0 * l1) - b * l2) / c)
    by (unfold id; f_equal; ring).
  eapply derivable_pt_lim_ext; [| exact D5].
  intros z. unfold minus_fct, mult_real_fct, mult_fct, id. cbv beta.
  unfold Rdiv. f_equal. ring.
Qed.

Lemma Legendre_deriv_SS (r : R) (k : nat) :
  Legendre_deriv r (S (S k))
  = (IZR (2 * Z.of_nat (S (S k)) - 1)
     * (Legendre r (Z.of_nat (S k)) + r * Legendre_deriv r (S k))
     - IZR (Z.of_nat (S (S k)) - 1) * Legendre_deriv r k)
    / IZR (Z.of_nat (S (S k))).
Proof. reflexivity. Qed.

Lemma Legendre_deriv_correct (k : nat) (r : R) :
  derivable_pt_lim (fun t => Legendre t (Z.of_nat k)) r (Legendre_deriv r k).
Proof.
  revert r. induction k as [| | k IH0 IH1] using nat_two_step_ind; intros r.
  - apply (derivable_pt_lim_ext (fct_cte 1)).
    + intros z. simpl. rewrite Legendre_0. reflexivity.
    + apply derivable_pt_lim_const.
  - apply (derivable_pt_lim_ext id).
    + intros z. simpl. rewrite Legendre_1. reflexivity.
    + apply derivable_pt_lim_id.
  - set (n := Z.of_nat (S (S k))).
    assert (E1 : Z.of_nat (S k) = (n - 1)%Z) by (unfold n; lia).
    assert (E0 : Z.of_nat k = (n - 2)%Z) by (unfold n; lia).
    rewrite Legendre_deriv_SS. fold n.
    eapply derivable_pt_lim_ext.
    + intros z. symmetry. apply Legendre_rec. unfold n. lia.
    + rewrite <- E1, <- E0.
      apply (derivable_pt_lim_three_term
               (fun t => Legendre t (Z.of_nat (S k)))
               (fun t => Legendre t (Z.of_nat k))).
      * apply IH1.
      * apply IH0.
Qed.

(** The differentiated recursion against the closed form that [dLegendre]
    uses between the endpoints: an identity of polynomials in [r]. *)
Lemma Legendre_deriv_identity (k : nat) (r : R) :
  (r * r - 1) * Legendre_deriv r k
  = IZR (Z.of_nat k)
    * (r * Legendre r (Z.of_nat k) - Legendre r (Z.of_nat k - 1)).
Proof.
  induction k as [| | k IH0 IH1] using nat_two_step_ind.
  - simpl. ring.
  - simpl. rewrite Legendre_1, Legendre_0. ring.
  - set (n := Z.of_nat (S (S k))) in *.
    assert (Hn : (2 <= n)%Z) by (unfold n; lia).
    assert (E1 : Z.of_nat (S k) = (n - 1)%Z) by (unfold n; lia).
    assert (E0 : Z.of_nat k = (n - 2)%Z) by (unfold n; lia).
    rewrite E1 in IH1. rewrite E0 in IH0.
    replace (n - 1 - 1)%Z with (n - 2)%Z in IH1 by lia.
    replace (n - 2 - 1)%Z with (n - 3)%Z in IH0 by lia.
    pose proof (Legendre_recurrence r n ltac:(lia)) as Rn.
    pose proof (Legendre_recurrence r (n - 1) ltac:(lia)) as Rp.
    replace (n - 1 - 1)%Z with (n - 2)%Z in Rp by lia.
    replace (n - 1 - 2)%Z with (n - 3)%Z in Rp by lia.
    rewrite Legendre_deriv_SS. fold n. rewrite E1.
    rewrite ?minus_IZR, ?mult_IZR, ?minus_IZR in *.
    set (N := IZR n) in *.
    set (a := Legendre r n) in *. set (b := Legendre r (n - 1)) in *.
    set (c := Legendre r (n - 2)) in *. set (e := Legendre r (n - 3)) in *.
    set (d1 := Legendre_deriv r (S k)) in *.
    set (d0 := Legendre_deriv r k) in *.
    assert (HN : N <> 0) by (apply IZR_neq0; lia).
    apply (Rmult_eq_reg_l N); [| exact HN].
    transitivity
      ((2 * N - 1) * ((r * r - 1) * b + r * ((r * r - 1) * d1))
       - (N - 1) * ((r * r - 1) * d0)).
    { field. exact HN. }
    rewrite IH1, IH0.
    transitivity (N * r * (N * a) - N * N * b); [| ring].
    rewrite Rn.
    assert (He : (N - 2) * e = (2 * (N - 1) - 1) * r * c - (N - 1) * b)
      by lra.
    replace ((N - 1) * ((N - 2) * (r * c - e)))
      with ((N - 1) * ((N - 2) * r * c - (N - 2) * e)) by ring.
    rewrite He. ring.
Qed.

Lemma Legendre_deriv_at_1 (k : nat) :
  Legendre_deriv 1 k = IZR (Z.of_nat k) * (IZR (Z.of_nat k) + 1) / 2.
Proof.
  induction k as [| | k IH0 IH1] using nat_two_step_ind.
  - simpl. field.
  - simpl. field.
  - rewrite Legendre_deriv_SS, IH0, IH1, Legendre_at_1 by lia.
    rewrite !minus_IZR, !mult_IZR.
    replace (Z.of_nat (S (S k))) with (Z.of_nat k + 2)%Z by lia.
    replace (Z.of_nat (S k)) with (Z.of_nat k + 1)%Z by lia.
    rewrite !plus_IZR.
    field. rewrite <- plus_IZR. apply IZR_neq0. lia.
Qed.

Lemma Legendre_deriv_at_m1 (k : nat) :
  Legendre_deriv (-1) k
  = powerRZ (-1) (Z.of_nat k - 1)
    * (IZR (Z.of_nat k) * (IZR (Z.of_nat k) + 1) / 2).
Proof.
  induction k as [| | k IH0 IH1] using nat_two_step_ind.
  - simpl. field.
  - simpl. field.
  - rewrite Legendre_deriv_SS, IH0, IH1, Legendre_at_m1 by lia.
    replace (Z.of_nat (S (S k)) - 1)%Z with (Z.of_nat k + 1)%Z by lia.
    replace (Z.of_nat (S k) - 1)%Z with (Z.of_nat k) by lia.
    replace (Z.of_nat (S k)) with (Z.of_nat k + 1)%Z by lia.
    replace (Z.of_nat (S (S k))) with (Z.of_nat k + 2)%Z by lia.
    rewrite powerRZ_m1_pred, powerRZ_m1_succ.
    rewrite !minus_IZR, !mult_IZR, !plus_IZR.
    field. rewrite <- plus_IZR. apply IZR_neq0. lia.
Qed.

Lemma dLegendre_is_Legendre_deriv (r : R) (k : nat) :
  -1 <= r <= 1 -> dLegendre r (Z.of_nat k) = Legendre_deriv r k.
Proof.
  intros Hr. destruct k as [| k]; [reflexivity |].
  set (n := Z.of_nat (S k)).
  assert (Hn : n <> 0%Z) by (unfold n; lia).
  destruct (interval_cases r) as [Hi | [-> | [-> | He]]]; [| | | lra].
  - rewrite dLegendre_interior by assumption.
    pose proof (Legendre_deriv_identity (S k) r) as I. fold n in I.
    rewrite <- I. field. nra.
  - rewrite dLegendre_at_m1, Legendre_deriv_at_m1 by assumption.
    reflexivity.
  - rewrite dLegendre_at_1, Legendre_deriv_at_1 by assumption.
    reflexivity.
Qed.

Lemma Legendre_derivable (r : R) (n : Z) :
  (0 <= n)%Z -> -1 <= r <= 1 ->
  derivable_pt_lim (fun t => Legendre t n) r (dLegendre r n).
Proof.
  intros Hn Hr.
  rewrite <- (Z2Nat.id n Hn).
  rewrite dLegendre_is_Legendre_deriv by exact Hr.
  apply Legendre_deriv_correct.
Qed.

(** X3. On the closed interval [-1, 1], [dLegendre r n] is the derivative
    at [r] of the function [Legendre . n], for every order [n >= 0]: the
    interior quotient and the two endpoint formulas all agree with the
    recursion differentiated term by term. *)
Theorem dLegendre_derivative (r : R) (n : Z) :
  (0 <= n)%Z -> -1 <= r <= 1 ->
  derivable_pt_lim (fun t => Legendre t n) r (dLegendre r n).
Proof. apply Legendre_derivable. Qed.

Lemma dLegendre_derivative_witness :
  derivable_pt_lim (fun t => Legendre t 3) 1 (dLegendre 1 3).
Proof. apply dLegendre_derivative; [lia | lra]. Defined.

(** X4. On [-1, 1] the values of [dLegendre] satisfy the classical relation
    between neighbouring orders: for [n >= 1],
    [dLegendre r (n+1) - dLegendre r (n-1) = (2n+1) * Legendre r n],
    at the two special-cased endpoints as in the interior. *)
Theorem dLegendre_neighbours (r : R) (n : Z) :
  (1 <= n)%Z -> -1 <= r <= 1 ->
  dLegendre r (n + 1) - dLegendre r (n - 1) = IZR (2 * n + 1) * Legendre r n.
Proof.
  intros Hn Hr.
  rewrite <- (Z2Nat.id (n + 1)), <- (Z2Nat.id (n - 1)) by lia.
  rewrite !dLegendre_is_Legendre_deriv by exact Hr.
  pose proof (Legendre_deriv_identity (Z.to_nat (n + 1)) r) as I1.
  pose proof (Legendre_deriv_identity (Z.to_nat (n - 1)) r) as I0.
  rewrite !Z2Nat.id in I1, I0 by lia.
  replace (n + 1 - 1)%Z with n in I1 by lia.
  replace (n - 1 - 1)%Z with (n - 2)%Z in I0 by lia.
  pose proof (Legendre_recurrence r (n + 1) ltac:(lia)) as R1.
  pose proof (Legendre_recurrence r n ltac:(lia)) as R0.
  replace (n + 1 - 1)%Z with n in R1 by lia.
  replace (n + 1 - 2)%Z with (n - 1)%Z in R1 by lia.
  rewrite ?plus_IZR, ?minus_IZR, ?mult_IZR, ?plus_IZR in *.
  set (N := IZR n) in *.
  set (A := Legendre r (n + 1)) in *. set (a := Legendre r n) in *.
  set (b := Legendre r (n - 1)) in *. set (c := Legendre r (n - 2)) in *.
  set (d1 := Legendre_deriv r (Z.to_nat (n + 1))) in *.
  set (d0 := Legendre_deriv r (Z.to_nat (n - 1))) in *.
  destruct (interval_cases r) as [Hi | [-> | [-> | He]]]; [| | | lra].
  - assert (K : (r * r - 1) * (d1 - d0) = (r * r - 1) * ((2 * N + 1) * a)).
    { transitivity ((r * r - 1) * d1 - (r * r - 1) * d0); [ring |].
      rewrite I1, I0.
      transitivity (r * ((N + 1) * A) - (N + 1) * a - (N - 1) * r * b
                    + (N - 1) * c); [ring |].
      rewrite R1.
      assert (Hc : (N - 1) * c = (2 * N - 1) * r * b - N * a) by lra.
      rewrite Hc. ring. }
    apply (Rmult_eq_reg_l (r * r - 1)); [exact K | nra].
  - unfold d1, d0, a. rewrite !Legendre_deriv_at_m1, Legendre_at_m1 by lia.
    rewrite !Z2Nat.id by lia.
    replace (n + 1 - 1)%Z with n by lia.
    replace (n - 1 - 1)%Z with (n - 2)%Z by lia.
    rewrite powerRZ_m1_pred2.
    rewrite ?plus_IZR, ?minus_IZR. fold N. field.
  - unfold d1, d0, a. rewrite !Legendre_deriv_at_1, Legendre_at_1 by lia.
    rewrite !Z2Nat.id by lia.
    rewrite ?plus_IZR, ?minus_IZR. fold N. field.
Qed.

Lemma dLegendre_neighbours_witness :
  dLegendre 1 (2 + 1) - dLegendre 1 (2 - 1) = IZR (2 * 2 + 1) * Legendre 1 2.
Proof. apply dLegendre_neighbours; [lia | lra]. Defined.

(** ** dVCJH_1d *)

Lemma dVCJH_1d_left (r : R) (p : Z) (eta : R) :
  p <> 0%Z ->
  dVCJH_1d r 0 p eta
  = 0.5 * powerRZ (-1) p
    * (dLegendre r p
       - (eta * dLegendre r (p - 1) + dLegendre r (p + 1)) / (1 + eta)).
Proof.
  intros Hp. unfold dVCJH_1d. simpl.
  destruct (Z.eqb_spec p 0); [contradiction | reflexivity].
Qed.

Lemma dVCJH_1d_left_0 (r eta : R) :
  dVCJH_1d r 0 0 eta
  = 0.5 * (dLegendre r 0 - dLegendre r 1 / (1 + eta)).
Proof. unfold dVCJH_1d. simpl. ring. Qed.

Lemma dVCJH_1d_right_0 (r eta : R) :
  dVCJH_1d r 1 0 eta
  = 0.5 * (dLegendre r 0 + dLegendre r 1 / (1 + eta)).
Proof. reflexivity. Qed.

(** At order -1 every branch of [dLegendre] gives 0. *)
Lemma dLegendre_m1_order (r : R) : dLegendre r (-1) = 0.
Proof.
  destruct (interval_cases r) as [Hi | [-> | [-> | He]]].
  - rewrite dLegendre_interior by (lia || assumption).
    rewrite !Legendre_neg by lia. unfold Rdiv. ring.
  - rewrite dLegendre_at_m1 by lia. simpl. field.
  - rewrite dLegendre_at_1 by lia. simpl. field.
  - apply dLegendre_exterior. exact He.
Qed.

(** X5. The order-0 special case of [dVCJH_1d] changes nothing: the term it
    drops, [eta * dLegendre r (-1)], is 0 at every point, so the general
    formula taken at order 0 has the value the special case returns, for
    both correction functions. *)
Theorem dVCJH_1d_order0_consistent (r eta : R) :
  dLegendre r (-1) = 0
  /\ dVCJH_1d r 0 0 eta
     = 0.5 * powerRZ (-1) 0
       * (dLegendre r 0
          - (eta * dLegendre r (0 - 1) + dLegendre r (0 + 1)) / (1 + eta))
  /\ dVCJH_1d r 1 0 eta
     = 0.5 * (dLegendre r 0
              + (eta * dLegendre r (0 - 1) + dLegendre r (0 + 1)) / (1 + eta)).
Proof.
  split; [apply dLegendre_m1_order |].
  rewrite dVCJH_1d_left_0, dVCJH_1d_right_0.
  change (0 - 1)%Z with (-1)%Z. change (0 + 1)%Z with 1%Z.
  rewrite dLegendre_m1_order. simpl. split.
  - unfold Rdiv. ring.
  - unfold Rdiv. ring.
Qed.

Lemma dVCJH_1d_mirror_aux (r : R) (p : Z) (eta : R) :
  (0 <= p)%Z -> dVCJH_1d r 1 p eta = - dVCJH_1d (- r) 0 p eta.
Proof.
  intros Hp. destruct (Z.eq_dec p 0) as [-> | Hne].
  - rewrite dVCJH_1d_left_0, dVCJH_1d_right_0.
    rewrite !dLegendre_opp by lia. simpl. unfold Rdiv. ring.
  - rewrite dVCJH_1d_right_grouping, dVCJH_1d_left by assumption.
    rewrite !dLegendre_opp by lia.
    rewrite powerRZ_m1_pred, powerRZ_m1_succ.
    pose proof (powerRZ_m1_sqr p) as Q.
    set (q := powerRZ (-1) p) in *.
    transitivity
      (0.5 * (q * q)
       * (dLegendre r p
          + (eta * dLegendre r (p - 1) + dLegendre r (p + 1)) / (1 + eta)));
      [rewrite Q; ring | unfold Rdiv; ring].
Qed.

(** X6. The two branches of [dVCJH_1d] mirror each other for every [eta]:
    for every order [>= 0] and every point, the right function at [r] is
    the negative of the left function at [-r]. *)
Theorem dVCJH_1d_mirror (r : R) (p : Z) (eta : R) :
  (0 <= p)%Z -> dVCJH_1d r 1 p eta = - dVCJH_1d (- r) 0 p eta.
Proof. apply dVCJH_1d_mirror_aux. Qed.

Lemma dVCJH_1d_mirror_witness :
  dVCJH_1d (1 / 2) 1 2 1 = - dVCJH_1d (- (1 / 2)) 0 2 1.
Proof. apply dVCJH_1d_mirror. lia. Defined.

(** X7. With [eta = 0] the two branches of [VCJH_1d] mirror each other:
    for every order [>= 0] and every point, the right function at [r] is
    the left function at [-r]. *)
Theorem VCJH_1d_mirror_eta0 (r : R) (p : Z) :
  (0 <= p)%Z -> VCJH_1d r 1 p 0 = VCJH_1d (- r) 0 p 0.
Proof.
  intros Hp. unfold VCJH_1d. simpl.
  rewrite (Legendre_opp r p), (Legendre_opp r (p + 1)) by lia.
  rewrite powerRZ_m1_succ.
  pose proof (powerRZ_m1_sqr p) as Q.
  set (q := powerRZ (-1) p) in *.
  rewrite half_eq.
  transitivity ((q * q) * (Legendre r p + Legendre r (p + 1)) / 2);
    [rewrite Q; field | field].
Qed.

Lemma VCJH_1d_mirror_eta0_witness :
  VCJH_1d (1 / 3) 1 2 0 = VCJH_1d (- (1 / 3)) 0 2 0.
Proof. apply VCJH_1d_mirror_eta0. lia. Defined.

(** X8. The slope of the DG correction functions at their own end: with
    [eta = 0] and every order [p >= 0], [dVCJH_1d] is [-(p+1)^2/2] for the
    left function at -1 and [(p+1)^2/2] for the right function at 1. *)
Theorem dVCJH_1d_DG_end_slope (p : Z) :
  (0 <= p)%Z ->
  dVCJH_1d (-1) 0 p 0 = - ((IZR p + 1) * (IZR p + 1)) / 2
  /\ dVCJH_1d 1 1 p 0 = (IZR p + 1) * (IZR p + 1) / 2.
Proof.
  intros Hp.
  assert (L : dVCJH_1d (-1) 0 p 0 = - ((IZR p + 1) * (IZR p + 1)) / 2).
  { destruct (Z.eq_dec p 0) as [-> | Hne].
    - rewrite dVCJH_1d_left_0, dLegendre_0, dLegendre_at_m1 by lia.
      simpl. rewrite half_eq. field.
    - rewrite dVCJH_1d_left by assumption.
      rewrite (dLegendre_at_m1 p), (dLegendre_at_m1 (p + 1)) by lia.
      replace (p + 1 - 1)%Z with p by lia.
      rewrite powerRZ_m1_pred, plus_IZR.
      pose proof (powerRZ_m1_sqr p) as Q.
      set (q := powerRZ (-1) p) in *.
      rewrite half_eq.
      transitivity (- (q * q) * ((IZR p + 1) * (IZR p + 1)) / 2);
        [field | rewrite Q; field]. }
  split; [exact L |].
  rewrite dVCJH_1d_mirror_aux by exact Hp.
  replace (- (1)) with (-1) by ring. rewrite L. field.
Qed.

Lemma dVCJH_1d_DG_end_slope_witness :
  dVCJH_1d (-1) 0 3 0 = - ((IZR 3 + 1) * (IZR 3 + 1)) / 2
  /\ dVCJH_1d 1 1 3 0 = (IZR 3 + 1) * (IZR 3 + 1) / 2.
Proof. apply dVCJH_1d_DG_end_slope. lia. Defined.

(** The derivative of a correction function built from three functions. *)
Lemma derivable_pt_lim_correction (f g h : R -> R) (c s eta t0 l1 l2 l3 : R) :
  derivable_pt_lim f t0 l1 ->
  derivable_pt_lim g t0 l2 ->
  derivable_pt_lim h t0 l3 ->
  derivable_pt_lim
    (fun t => c * (f t + s * ((eta * g t + h t) / (1 + eta)))) t0
    (c * (l1 + s * ((eta * l2 + l3) / (1 + eta)))).
Proof.
  intros Hf Hg Hh.
  pose proof (derivable_pt_lim_scal _ eta _ _ Hg) as D1.
  pose proof (derivable_pt_lim_plus _ _ _ _ _ D1 Hh) as D2.
  pose proof (derivable_pt_lim_div_scal _ _ _ (1 + eta) D2) as D3.
  pose proof (derivable_pt_lim_scal _ s _ _ D3) as D4.
  pose proof (derivable_pt_lim_plus _ _ _ _ _ Hf D4) as D5.
  pose proof (derivable_pt_lim_scal _ c _ _ D5) as D6.
  eapply derivable_pt_lim_ext; [| exact D6].
  intros z. reflexivity.
Qed.

Lemma Legendre_neg_derivable (r : R) (n : Z) :
  (n < 0)%Z -> derivable_pt_lim (fun t => Legendre t n) r 0.
Proof.
  intros Hn. apply (derivable_pt_lim_ext (fct_cte 0)).
  - intros z. rewrite Legendre_neg by exact Hn. reflexivity.
  - apply derivable_pt_lim_const.
Qed.

(** X9. [dVCJH_1d] is the derivative of [VCJH_1d] on [-1, 1]: for the left
    function at every [eta] and every order [>= 0], and for the right
    function when [eta = 0]. *)
Theorem dVCJH_1d_derivative (r : R) (mode p : Z) (eta : R) :
  (0 <= p)%Z -> -1 <= r <= 1 ->
  mode = 0%Z \/ (mode = 1%Z /\ eta = 0) ->
  derivable_pt_lim (fun t => VCJH_1d t mode p eta) r (dVCJH_1d r mode p eta).
Proof.
  intros Hp Hr Hm.
  pose proof (Legendre_derivable r p Hp Hr) as D0.
  pose proof (Legendre_derivable r (p + 1) ltac:(lia) Hr) as D1.
  assert (Dm : derivable_pt_lim (fun t => Legendre t (p - 1)) r
                 (if (p =? 0)%Z then 0 else dLegendre r (p - 1))).
  { destruct (Z.eqb_spec p 0) as [-> | Hne].
    - apply Legendre_neg_derivable. lia.
    - apply Legendre_derivable; [lia | exact Hr]. }
  destruct Hm as [-> | [-> ->]].
  - pose proof (derivable_pt_lim_correction _ _ _ (powerRZ (-1) p / 2) (-1)
                  eta r _ _ _ D0 Dm D1) as D.
    eapply derivable_pt_lim_ext in D.
    2:{ intros z. instantiate (1 := fun t => VCJH_1d t 0 p eta).
        unfold VCJH_1d. simpl. unfold Rdiv. ring. }
    replace (dVCJH_1d r 0 p eta)
      with (powerRZ (-1) p / 2
            * (dLegendre r p
               + -1 * ((eta * (if (p =? 0)%Z then 0 else dLegendre r (p - 1))
                        + dLegendre r (p + 1)) / (1 + eta)))); [exact D |].
    destruct (Z.eqb_spec p 0) as [-> | Hne].
    + rewrite dVCJH_1d_left_0, half_eq. simpl. unfold Rdiv. ring.
    + rewrite dVCJH_1d_left, half_eq by assumption. unfold Rdiv. ring.
  - pose proof (derivable_pt_lim_correction _ _ _ 0.5 1
                  0 r _ _ _ D0 Dm D1) as D.
    eapply derivable_pt_lim_ext in D.
    2:{ intros z. instantiate (1 := fun t => VCJH_1d t 1 p 0).
        unfold VCJH_1d. simpl. unfold Rdiv.
        replace (1 + 0) with 1 by ring. rewrite Rinv_1. ring. }
    replace (dVCJH_1d r 1 p 0)
      with (0.5
            * (dLegendre r p
               + 1 * ((0 * (if (p =? 0)%Z then 0 else dLegendre r (p - 1))
                       + dLegendre r (p + 1)) / (1 + 0)))); [exact D |].
    destruct (Z.eqb_spec p 0) as [-> | Hne].
    + rewrite dVCJH_1d_right_0. simpl. unfold Rdiv. ring.
    + rewrite dVCJH_1d_right_grouping by assumption. unfold Rdiv. ring.
Qed.

Lemma dVCJH_1d_derivative_witness :
  derivable_pt_lim (fun t => VCJH_1d t 0 2 1) (1 / 2) (dVCJH_1d (1 / 2) 0 2 1).
Proof. apply dVCJH_1d_derivative; [lia | lra | left; reflexivity]. Defined.

(** ** compute_eta and the correction functions together *)

Lemma c_1d_table_positive (order : Z) (c : R) :
  c_1d_table order = Ok c -> 0 < c.
Proof.
  unfold c_1d_table, FatalError.
  destruct (order =? 2)%Z; [intros H; injection H as <-; lra |].
  destruct (order =? 3)%Z; [intros H; injection H as <-; lra |].
  destruct (order =? 4)%Z; [intros H; injection H as <-; lra |].
  destruct (order =? 5)%Z; [intros H; injection H as <-; lra |].
  discriminate.
Qed.

Lemma scaled_square_nonneg (c k w : R) :
  0 < c -> 0 < k -> 0 <= c * k / 2 * w * w.
Proof.
  intros Hc Hk.
  assert (0 < c * k / 2).
  { apply Rdiv_lt_0_compat; [apply Rmult_lt_0_compat; assumption | lra]. }
  assert (0 <= w * w) by nra.
  rewrite Rmult_assoc. apply Rmult_le_pos; [lra | assumption].
Qed.

(** Whatever [compute_eta] returns for an order [>= 0] is not negative. *)
Lemma compute_eta_nonneg (DG SD HU CPLUS : Z) (factorial : Z -> R)
    (vcjh_scheme order : Z) (eta : R) :
  (0 <= order)%Z ->
  compute_eta DG SD HU CPLUS factorial vcjh_scheme order = Ok eta ->
  0 <= eta /\ (order = 0%Z -> eta = 0).
Proof.
  intros Ho. unfold compute_eta, fatal_if, FatalError.
  destruct (Z.eqb_spec order 0) as [E0 | N0]; cbn [andb].
  - destruct (vcjh_scheme =? DG)%Z; cbn [negb bind]; [| discriminate].
    intros H. injection H as <-. split; [lra | reflexivity].
  - cbn [bind].
    assert (P1 : 0 < IZR order) by (apply IZR_lt; lia).
    assert (P2 : 0 < IZR (order + 1)) by (apply IZR_lt; lia).
    destruct (vcjh_scheme =? DG)%Z.
    { intros H. injection H as <-. split; [lra | contradiction]. }
    destruct (vcjh_scheme =? SD)%Z.
    { intros H. injection H as <-. split; [| contradiction].
      rewrite !Rmult_1_l. apply Rlt_le, Rdiv_lt_0_compat; assumption. }
    destruct (vcjh_scheme =? HU)%Z.
    { intros H. injection H as <-. split; [| contradiction].
      rewrite !Rmult_1_l. apply Rlt_le, Rdiv_lt_0_compat; assumption. }
    destruct (vcjh_scheme =? CPLUS)%Z; [| discriminate].
    destruct (c_1d_table order) as [c | msg |] eqn:Ec; cbn [bind];
      [| discriminate | discriminate].
    intros H. injection H as <-. split; [| contradiction].
    apply c_1d_table_positive in Ec.
    apply scaled_square_nonneg; [exact Ec |].
    apply IZR_lt. destruct order; lia.
Qed.

(** X10. [compute_eta] and [VCJH_1d] fit together: whenever [compute_eta]
    returns a constant for an order [>= 0], under any of the four schemes,
    that constant is not negative and the left correction function built
    with it is 1 at -1 and 0 at 1. *)
Theorem compute_eta_left_correction (DG SD HU CPLUS : Z) (factorial : Z -> R)
    (vcjh_scheme order : Z) (eta : R) :
  (0 <= order)%Z ->
  compute_eta DG SD HU CPLUS factorial vcjh_scheme order = Ok eta ->
  0 <= eta
  /\ VCJH_1d (-1) 0 order eta = 1
  /\ VCJH_1d 1 0 order eta = 0.
Proof.
  intros Ho He.
  destruct (compute_eta_nonneg _ _ _ _ _ _ _ _ Ho He) as [Hpos H0].
  split; [exact Hpos |].
  destruct (Z.eq_dec order 0) as [E | NE].
  - subst order. rewrite (H0 eq_refl). exact VCJH_1d_left_order0.
  - split; [apply VCJH_1d_left_own_end | apply VCJH_1d_left_far_end];
      (lia || assumption).
Qed.

Lemma compute_eta_left_correction_witness :
  0 <= 3 / 4
  /\ VCJH_1d (-1) 0 3 (3 / 4) = 1
  /\ VCJH_1d 1 0 3 (3 / 4) = 0.
Proof.
  apply (compute_eta_left_correction 0 1 2 3 (fun _ => 1) 1 3 (3 / 4)).
  - lia.
  - unfold compute_eta. simpl. f_equal. lra.
Defined.

(** ** eval_gamma along the integers *)

(** X11. For every [n >= 1], [eval_gamma n] is positive, so the Gamma
    quotients of [eval_jacobi] have a denominator that is not 0 when
    [in_alpha] and [in_beta] are [>= 0], and [eval_gamma] satisfies
    [eval_gamma (n+1) = n * eval_gamma n]. *)
Theorem eval_gamma_positive_step (n : Z) :
  (1 <= n)%Z ->
  0 < eval_gamma n /\ eval_gamma (n + 1) = IZR n * eval_gamma n.
Proof.
  intros Hn. rewrite !eval_gamma_factorial by lia. split.
  - apply INR_fact_lt_0.
  - replace (Z.to_nat (n + 1 - 1)) with (S (Z.to_nat (n - 1))) by lia.
    change (fact (S (Z.to_nat (n - 1))))
      with (S (Z.to_nat (n - 1)) * fact (Z.to_nat (n - 1)))%nat.
    rewrite mult_INR. f_equal.
    rewrite INR_IZR_INZ. f_equal. lia.
Qed.

Lemma eval_gamma_positive_step_witness :
  0 < eval_gamma 4 /\ eval_gamma (4 + 1) = IZR 4 * eval_gamma 4.
Proof. apply eval_gamma_positive_step. lia. Defined.

(** ** The Lagrange family as sums of products *)

Lemma lin_prod_ext_in (X : list R) (s1 s2 : nat -> bool) (idx : list nat)
    (t : R) :
  (forall j, In j idx -> s1 j = s2 j) ->
  lin_prod X s1 idx t = lin_prod X s2 idx t.
Proof.
  induction idx as [| j idx IH]; intros H; [reflexivity |].
  cbn [lin_prod]. rewrite (H j) by (left; reflexivity).
  rewrite IH; [reflexivity |]. intros k Hk. apply H. right. exact Hk.
Qed.

Lemma skip_sum_ext_in (skip : nat -> bool) (t1 t2 : nat -> R)
    (idx : list nat) :
  (forall i, In i idx -> t1 i = t2 i) ->
  skip_sum skip t1 idx = skip_sum skip t2 idx.
Proof.
  induction idx as [| i idx IH]; intros H; [reflexivity |].
  cbn [skip_sum]. rewrite (H i) by (left; reflexivity).
  rewrite IH; [reflexivity |]. intros k Hk. apply H. right. exact Hk.
Qed.

Lemma skip_sum_scal (skip : nat -> bool) (t : nat -> R) (c : R)
    (idx : list nat) :
  skip_sum skip (fun i => c * t i) idx = c * skip_sum skip t idx.
Proof.
  induction idx as [| i idx IH]; cbn [skip_sum]; [ring |].
  rewrite IH. destruct (skip i); ring.
Qed.

Lemma skip_sum_div (skip : nat -> bool) (t : nat -> R) (d : R)
    (idx : list nat) :
  skip_sum skip (fun i => t i / d) idx = skip_sum skip t idx / d.
Proof.
  induction idx as [| i idx IH]; cbn [skip_sum]; [unfold Rdiv; ring |].
  rewrite IH. destruct (skip i); unfold Rdiv; ring.
Qed.

(** The loop of [Lagrange] as a quotient of two products. *)
Lemma Lagrange_fold_lin_prod (X : list R) (y0 : R) (mode : nat)
    (idx : list nat) (lag : R) :
  fold_left
    (fun lag i =>
       if (i =? mode)%nat then lag
       else lag * ((y0 - nth i X 0) / (nth mode X 0 - nth i X 0)))
    idx lag
  = lag * (lin_prod X (fun j => (j =? mode)%nat) idx y0
           / lin_prod X (fun j => (j =? mode)%nat) idx (nth mode X 0)).
Proof.
  revert lag. induction idx as [| i idx IH]; intros lag.
  - cbn. unfold Rdiv. rewrite Rinv_1. ring.
  - cbn [fold_left lin_prod]. rewrite IH.
    destruct (i =? mode)%nat.
    + rewrite !Rmult_1_l. reflexivity.
    + unfold Rdiv. rewrite Rinv_mult. ring.
Qed.

Lemma Lagrange_quotient (X : list R) (y0 : R) (mode : nat) :
  (mode < List.length X)%nat ->
  Lagrange X y0 mode
  = Ok (lin_prod X (fun j => (j =? mode)%nat) (seq 0 (List.length X)) y0
        / lin_prod X (fun j => (j =? mode)%nat) (seq 0 (List.length X))
            (nth mode X 0)).
Proof.
  intros Hm. rewrite Lagrange_product by exact Hm.
  rewrite Lagrange_fold_lin_prod, Rmult_1_l. reflexivity.
Qed.

(** The loop over [j] of [dLagrange]. *)
Lemma dLagrange_j_loop (X : list R) (y0 : R) (mode i : nat) (idx : list nat)
    (num den : R) :
  (mode < List.length X)%nat ->
  (forall j, In j idx -> (j < List.length X)%nat) ->
  for_each (dLagrange_j X y0 mode i) idx (num, den)
  = Ok (num * lin_prod X (fun j => (j =? mode)%nat || (j =? i)%nat) idx y0,
        den * lin_prod X (fun j => (j =? mode)%nat) idx (nth mode X 0)).
Proof.
  intros Hm. revert num den.
  induction idx as [| j idx IH]; intros num den Hin.
  - cbn. rewrite !Rmult_1_r. reflexivity.
  - assert (Hj : (j < List.length X)%nat) by (apply Hin; left; reflexivity).
    assert (Hrest : forall k, In k idx -> (k < List.length X)%nat)
      by (intros k Hk; apply Hin; right; exact Hk).
    cbn [for_each lin_prod]. unfold dLagrange_j at 1.
    destruct (j =? mode)%nat; cbn [negb andb orb bind].
    + rewrite IH by exact Hrest. f_equal. f_equal; ring.
    + rewrite (vec_at_in_range X j Hj), (vec_at_in_range X mode Hm).
      destruct (j =? i)%nat; cbn [negb bind];
        rewrite IH by exact Hrest; f_equal; f_equal; ring.
Qed.

(** The loop over [i] of [dLagrange]. *)
Lemma dLagrange_i_loop (X : list R) (y0 : R) (mode : nat) (idx : list nat)
    (dLag : R) :
  (mode < List.length X)%nat ->
  for_each (dLagrange_i X y0 mode) idx dLag
  = Ok (dLag
        + skip_sum (fun i => (i =? mode)%nat)
            (fun i =>
               lin_prod X (fun j => (j =? mode)%nat || (j =? i)%nat)
                 (seq 0 (List.length X)) y0
               / lin_prod X (fun j => (j =? mode)%nat)
                   (seq 0 (List.length X)) (nth mode X 0))
            idx).
Proof.
  intros Hm. revert dLag. induction idx as [| i idx IH]; intros dLag.
  - cbn. rewrite Rplus_0_r. reflexivity.
  - cbn [for_each skip_sum]. unfold dLagrange_i at 1.
    destruct (i =? mode)%nat; cbn [negb bind].
    + rewrite IH. f_equal. ring.
    + rewrite dLagrange_j_loop;
        [| exact Hm | intros j Hj; apply in_seq in Hj; lia].
      cbn [bind fst snd]. rewrite IH, !Rmult_1_l. f_equal. ring.
Qed.

Lemma dLagrange_sum (X : list R) (y0 : R) (mode : nat) :
  (mode < List.length X)%nat ->
  dLagrange X y0 mode
  = Ok (skip_sum (fun i => (i =? mode)%nat)
          (fun i =>
             lin_prod X (fun j => (j =? mode)%nat || (j =? i)%nat)
               (seq 0 (List.length X)) y0)
          (seq 0 (List.length X))
        / lin_prod X (fun j => (j =? mode)%nat)
            (seq 0 (List.length X)) (nth mode X 0)).
Proof.
  intros Hm. unfold dLagrange. rewrite dLagrange_i_loop by exact Hm.
  rewrite Rplus_0_l, skip_sum_div. reflexivity.
Qed.

(** The derivative of a product of linear factors: the sum, over the
    factors taken, of the product without that factor. *)
Lemma lin_prod_derivable (X : list R) (skip : nat -> bool) (idx : list nat)
    (t0 : R) :
  NoDup idx ->
  derivable_pt_lim (lin_prod X skip idx) t0
    (skip_sum skip
       (fun i => lin_prod X (fun j => skip j || (j =? i)%nat) idx t0) idx).
Proof.
  intros Hnd. induction Hnd as [| a idx Ha Hnd IH].
  - cbn. apply (derivable_pt_lim_const 1).
  - cbn [lin_prod skip_sum].
    assert (Hterm :
      skip_sum skip
        (fun i =>
           (if skip a || (a =? i)%nat then 1 else t0 - nth a X 0)
           * lin_prod X (fun j => skip j || (j =? i)%nat) idx t0) idx
      = (if skip a then 1 else t0 - nth a X 0)
        * skip_sum skip
            (fun i => lin_prod X (fun j => skip j || (j =? i)%nat) idx t0)
            idx).
    { rewrite <- skip_sum_scal. apply skip_sum_ext_in. intros i Hi.
      destruct (Nat.eqb_spec a i) as [E | NE]; [subst; contradiction |].
      rewrite orb_false_r. reflexivity. }
    rewrite Hterm. clear Hterm.
    rewrite Nat.eqb_refl, orb_true_r, Rmult_1_l.
    rewrite (lin_prod_ext_in X (fun j => skip j || (j =? a)%nat) skip).
    2:{ intros j Hj. destruct (Nat.eqb_spec j a) as [E | NE];
          [subst; contradiction | apply orb_false_r]. }
    destruct (skip a).
    + pose proof (derivable_pt_lim_mult (fct_cte 1) (lin_prod X skip idx)
                    t0 0 _ (derivable_pt_lim_const 1 t0) IH) as D.
      eapply derivable_pt_lim_ext in D; [| intros z; reflexivity].
      unfold fct_cte in D.
      match goal with
      | |- derivable_pt_lim _ _ ?l =>
          replace l with
            (0 * lin_prod X skip idx t0
             + 1 * skip_sum skip
                     (fun i =>
                        lin_prod X (fun j => skip j || (j =? i)%nat) idx t0)
                     idx) by ring
      end.
      exact D.
    + assert (Da : derivable_pt_lim (fun t => t - nth a X 0) t0 1).
      { pose proof (derivable_pt_lim_minus id (fct_cte (nth a X 0)) t0 1 0
                      (derivable_pt_lim_id t0)
                      (derivable_pt_lim_const _ t0)) as D.
        replace (1 - 0) with 1 in D by ring.
        eapply derivable_pt_lim_ext; [| exact D].
        intros z. reflexivity. }
      pose proof (derivable_pt_lim_mult _ (lin_prod X skip idx)
                    t0 1 _ Da IH) as D.
      eapply derivable_pt_lim_ext in D; [| intros z; reflexivity].
      match goal with
      | |- derivable_pt_lim _ _ ?l =>
          replace l with
            (1 * lin_prod X skip idx t0
             + (t0 - nth a X 0)
               * skip_sum skip
                   (fun i =>
                      lin_prod X (fun j => skip j || (j =? i)%nat) idx t0)
                   idx) by ring
      end.
      exact D.
Qed.

(** X12. [dLagrange] is the derivative of [Lagrange]: on distinct nodes and
    for a mode in range, [dLagrange] returns a value at every point, and
    that value is the derivative at the point of the function
    [y |-> Lagrange(X, y, m)]. *)
Theorem dLagrange_derivative (X : list R) (m : nat) (y0 : R) :
  NoDup X -> (m < List.length X)%nat ->
  exists d,
    dLagrange X y0 m = Ok d
    /\ derivable_pt_lim (fun y => value_of (Lagrange X y m)) y0 d.
Proof.
  intros _ Hm. eexists. split; [apply dLagrange_sum; exact Hm |].
  eapply derivable_pt_lim_ext.
  - intros z. rewrite Lagrange_quotient by exact Hm. reflexivity.
  - cbn [value_of]. apply derivable_pt_lim_div_scal.
    apply (lin_prod_derivable X (fun j => (j =? m)%nat)).
    apply seq_NoDup.
Qed.

Lemma dLagrange_derivative_witness :
  exists d,
    dLagrange [0; 1; 3] 2 1 = Ok d
    /\ derivable_pt_lim (fun y => value_of (Lagrange [0; 1; 3] y 1)) 2 d.
Proof.
  apply dLagrange_derivative.
  - repeat constructor; simpl; intros H; repeat destruct H as [H | H];
      try lra; exact H.
  - simpl. lia.
Defined.

(** The loop over [k] of [ddLagrange]. *)
Lemma ddLagrange_k_loop (X : list R) (y0 : R) (mode i j : nat)
    (idx : list nat) (num den : R) :
  (mode < List.length X)%nat ->
  (forall k, In k idx -> (k < List.length X)%nat) ->
  for_each (ddLagrange_k X y0 mode i j) idx (num, den)
  = Ok (num
        * lin_prod X
            (fun k => ((k =? mode)%nat || (k =? i)%nat) || (k =? j)%nat)
            idx y0,
        den * lin_prod X (fun k => (k =? mode)%nat) idx (nth mode X 0)).
Proof.
  intros Hm. revert num den.
  induction idx as [| k idx IH]; intros num den Hin.
  - cbn. rewrite !Rmult_1_r. reflexivity.
  - assert (Hk : (k < List.length X)%nat) by (apply Hin; left; reflexivity).
    assert (Hrest : forall k', In k' idx -> (k' < List.length X)%nat)
      by (intros k' Hk'; apply Hin; right; exact Hk').
    cbn [for_each lin_prod]. unfold ddLagrange_k at 1.
    destruct (k =? mode)%nat; cbn [negb andb orb bind].
    + rewrite IH by exact Hrest. f_equal. f_equal; ring.
    + rewrite (vec_at_in_range X k Hk), (vec_at_in_range X mode Hm).
      destruct (k =? i)%nat; destruct (k =? j)%nat; cbn [negb andb orb bind];
        rewrite IH by exact Hrest; f_equal; f_equal; ring.
Qed.

(** The loop over [j] of [ddLagrange]. *)
Lemma ddLagrange_j_loop (X : list R) (y0 : R) (mode i : nat) (idx : list nat)
    (ddLag : R) :
  (mode < List.length X)%nat ->
  for_each (ddLagrange_j X y0 mode i) idx ddLag
  = Ok (ddLag
        + skip_sum (fun j => (j =? mode)%nat || (j =? i)%nat)
            (fun j =>
               lin_prod X
                 (fun k => ((k =? mode)%nat || (k =? i)%nat) || (k =? j)%nat)
                 (seq 0 (List.length X)) y0
               / lin_prod X (fun k => (k =? mode)%nat)
                   (seq 0 (List.length X)) (nth mode X 0))
            idx).
Proof.
  intros Hm. revert ddLag. induction idx as [| j idx IH]; intros ddLag.
  - cbn. rewrite Rplus_0_r. reflexivity.
  - cbn [for_each skip_sum]. unfold ddLagrange_j at 1.
    destruct (j =? mode)%nat; cbn [negb orb bind].
    + rewrite IH. f_equal. ring.
    + rewrite ddLagrange_k_loop;
        [| exact Hm | intros k Hk; apply in_seq in Hk; lia].
      cbn [bind fst snd].
      destruct (j =? i)%nat; cbn [negb bind]; rewrite IH.
      * f_equal. ring.
      * rewrite !Rmult_1_l. f_equal. ring.
Qed.

(** The loop over [i] of [ddLagrange]. *)
Lemma ddLagrange_i_loop (X : list R) (y0 : R) (mode : nat) (idx : list nat)
    (ddLag : R) :
  (mode < List.length X)%nat ->
  for_each (ddLagrange_i X y0 mode) idx ddLag
  = Ok (ddLag
        + skip_sum (fun i => (i =? mode)%nat)
            (fun i =>
               skip_sum (fun j => (j =? mode)%nat || (j =? i)%nat)
                 (fun j =>
                    lin_prod X
                      (fun k =>
                         ((k =? mode)%nat || (k =? i)%nat) || (k =? j)%nat)
                      (seq 0 (List.length X)) y0
                    / lin_prod X (fun k => (k =? mode)%nat)
                        (seq 0 (List.length X)) (nth mode X 0))
                 (seq 0 (List.length X)))
            idx).
Proof.
  intros Hm. revert ddLag. induction idx as [| i idx IH]; intros ddLag.
  - cbn. rewrite Rplus_0_r. reflexivity.
  - cbn [for_each skip_sum]. unfold ddLagrange_i at 1.
    destruct (i =? mode)%nat; cbn [negb bind].
    + rewrite IH. f_equal. ring.
    + rewrite ddLagrange_j_loop by exact Hm. cbn [bind].
      rewrite IH. f_equal. ring.
Qed.

Lemma ddLagrange_sum (X : list R) (y0 : R) (mode : nat) :
  (mode < List.length X)%nat ->
  ddLagrange X y0 mode
  = Ok (skip_sum (fun i => (i =? mode)%nat)
          (fun i =>
             skip_sum (fun j => (j =? mode)%nat || (j =? i)%nat)
               (fun j =>
                  lin_prod X
                    (fun k =>
                       ((k =? mode)%nat || (k =? i)%nat) || (k =? j)%nat)
                    (seq 0 (List.length X)) y0)
               (seq 0 (List.length X)))
          (seq 0 (List.length X))
        / lin_prod X (fun k => (k =? mode)%nat)
            (seq 0 (List.length X)) (nth mode X 0)).
Proof.
  intros Hm. unfold ddLagrange. rewrite ddLagrange_i_loop by exact Hm.
  rewrite Rplus_0_l, <- skip_sum_div. f_equal.
  apply skip_sum_ext_in. intros i _. apply skip_sum_div.
Qed.

Lemma skip_sum_derivable (skip : nat -> bool) (f : nat -> R -> R)
    (l : nat -> R) (idx : list nat) (t0 : R) :
  (forall i, derivable_pt_lim (f i) t0 (l i)) ->
  derivable_pt_lim (fun t => skip_sum skip (fun i => f i t) idx) t0
    (skip_sum skip l idx).
Proof.
  intros H. induction idx as [| i idx IH].
  - cbn. apply (derivable_pt_lim_const 0).
  - cbn [skip_sum]. destruct (skip i).
    + pose proof (derivable_pt_lim_plus _ _ _ _ _
                    (derivable_pt_lim_const 0 t0) IH) as D.
      eapply derivable_pt_lim_ext; [| exact D]. intros z. reflexivity.
    + pose proof (derivable_pt_lim_plus _ _ _ _ _ (H i) IH) as D.
      eapply derivable_pt_lim_ext; [| exact D]. intros z. reflexivity.
Qed.

(** X13. [ddLagrange] is the derivative of [dLagrange]: on distinct nodes
    and for a mode in range, [ddLagrange] returns a value at every point,
    and that value is the derivative at the point of the function
    [y |-> dLagrange(X, y, m)]. *)
Theorem ddLagrange_derivative (X : list R) (m : nat) (y0 : R) :
  NoDup X -> (m < List.length X)%nat ->
  exists dd,
    ddLagrange X y0 m = Ok dd
    /\ derivable_pt_lim (fun y => value_of (dLagrange X y m)) y0 dd.
Proof.
  intros _ Hm. eexists. split; [apply ddLagrange_sum; exact Hm |].
  eapply derivable_pt_lim_ext.
  - intros z. rewrite dLagrange_sum by exact Hm. reflexivity.
  - cbn [value_of]. apply derivable_pt_lim_div_scal.
    apply (skip_sum_derivable (fun i => (i =? m)%nat)
             (fun i =>
                lin_prod X (fun j => (j =? m)%nat || (j =? i)%nat)
                  (seq 0 (List.length X)))).
    intros i.
    apply (lin_prod_derivable X (fun j => (j =? m)%nat || (j =? i)%nat)).
    apply seq_NoDup.
Qed.

Lemma ddLagrange_derivative_witness :
  exists dd,
    ddLagrange [0; 1; 3] 2 1 = Ok dd
    /\ derivable_pt_lim (fun y => value_of (dLagrange [0; 1; 3] y 1)) 2 dd.
Proof.
  apply ddLagrange_derivative.
  - repeat constructor; simpl; intros H; repeat destruct H as [H | H];
      try lra; exact H.
  - simpl. lia.
Defined.

Example dLagrange_two_nodes (a b t : R) :
  a <> b -> dLagrange [a; b] t 0 = Ok (1 / (a - b)).
Proof.
  intros Hab. rewrite dLagrange_sum by (simpl; lia). cbn.
  f_equal. field. lra.
Qed.

Example ddLagrange_three_nodes (t : R) :
  ddLagrange [0; 1; 2] t 0 = Ok 1.
Proof.
  rewrite ddLagrange_sum by (simpl; lia). cbn. f_equal. field.
Qed.

(** ** The Lagrange family outside its range *)

Lemma vec_at_out_of_range (v : list R) (i : nat) :
  (List.length v <= i)%nat -> vec_at v i = Undefined.
Proof.
  intros Hi. unfold vec_at.
  rewrite (proj2 (nth_error_None v i) Hi). reflexivity.
Qed.

(** X14. The three Lagrange functions return a value exactly when the node
    vector is empty or the mode is in range.  On an empty vector no loop
    runs and they return 1, 0 and 0 for every mode; on a vector that is
    not empty, a mode at or beyond its size makes the first step read
    [x_lag[mode]] outside the vector. *)
Theorem Lagrange_family_range (X : list R) (y0 : R) (m : nat) :
  (X = [] ->
   Lagrange X y0 m = Ok 1 /\ dLagrange X y0 m = Ok 0
   /\ ddLagrange X y0 m = Ok 0)
  /\ ((m < List.length X)%nat ->
      exists a b c,
        Lagrange X y0 m = Ok a /\ dLagrange X y0 m = Ok b
        /\ ddLagrange X y0 m = Ok c)
  /\ (X <> [] -> (List.length X <= m)%nat ->
      Lagrange X y0 m = Undefined /\ dLagrange X y0 m = Undefined
      /\ ddLagrange X y0 m = Undefined).
Proof.
  split; [| split].
  - intros ->. repeat split; reflexivity.
  - intros Hm. eexists. eexists. eexists.
    split; [apply Lagrange_quotient; exact Hm |].
    split; [apply dLagrange_sum; exact Hm |].
    apply ddLagrange_sum. exact Hm.
  - intros Hne Hm. destruct X as [| x0 X']; [contradiction |].
    assert (H0 : (0 =? m)%nat = false).
    { apply Nat.eqb_neq. cbn [List.length] in Hm. lia. }
    assert (Hv : vec_at (x0 :: X') m = Undefined)
      by (apply vec_at_out_of_range; exact Hm).
    unfold Lagrange, dLagrange, ddLagrange.
    cbn [List.length seq for_each].
    unfold dLagrange_i at 1, ddLagrange_i at 1.
    cbn [List.length seq for_each].
    unfold dLagrange_j at 1, ddLagrange_j at 1.
    cbn [List.length seq for_each].
    unfold ddLagrange_k at 1.
    rewrite H0, Hv. cbn. repeat split; reflexivity.
Qed.

Lemma Lagrange_family_range_witness :
  (exists a b c,
      Lagrange [0; 1] 2 1 = Ok a /\ dLagrange [0; 1] 2 1 = Ok b
      /\ ddLagrange [0; 1] 2 1 = Ok c)
  /\ (Lagrange [0; 1] 2 5 = Undefined /\ dLagrange [0; 1] 2 5 = Undefined
      /\ ddLagrange [0; 1] 2 5 = Undefined).
Proof.
  destruct (Lagrange_family_range [0; 1] 2 1) as (_ & H1 & _).
  destruct (Lagrange_family_range [0; 1] 2 5) as (_ & _ & H2).
  split.
  - apply H1. simpl. lia.
  - apply H2; [discriminate | simpl; lia].
Defined.

(** ** The mode numbering of the triangle *)

Lemma loop_nest_prefix (n d : nat) :
  exists rest, loop_nest (n + d) = loop_nest n ++ rest.
Proof.
  induction d as [| d [rest IH]].
  - exists []. rewrite Nat.add_0_r, app_nil_r. reflexivity.
  - replace (n + S d)%nat with (S (n + d)) by lia.
    rewrite loop_nest_S, IH, <- app_assoc. eexists. reflexivity.
Qed.

(** The step [(k, j)] of the nest is number [k(k+1)/2 + j], counted from 0:
    the steps of the diagonals before [k] come first. *)
Lemma loop_nest_nth (n k j : nat) :
  (k < n)%nat -> (j <= k)%nat ->
  nth_error (loop_nest n) (List.length (loop_nest k) + j) = Some (k, j).
Proof.
  intros Hk Hj.
  destruct (loop_nest_prefix (S k) (n - S k)) as [rest E].
  replace (S k + (n - S k))%nat with n in E by lia.
  rewrite E, nth_error_app1.
  2:{ rewrite loop_nest_S, length_app, length_map, length_seq. lia. }
  rewrite loop_nest_S, nth_error_app2 by lia.
  replace (List.length (loop_nest k) + j - List.length (loop_nest k))%nat
    with j by lia.
  rewrite nth_error_map.
  rewrite (nth_error_nth' (seq 0 (k + 1)) 0%nat)
    by (rewrite length_seq; lia).
  rewrite seq_nth by lia. reflexivity.
Qed.

Lemma loop_nest_length_Z (k : nat) :
  Z.of_nat (List.length (loop_nest k))
  = (Z.of_nat k * (Z.of_nat k + 1) / 2)%Z.
Proof.
  pose proof (loop_nest_length k) as L.
  apply Z.div_unique_exact; [lia |]. nia.
Qed.

Lemma tri_modes_nth (order : Z) (i j : nat) :
  (Z.of_nat (i + j) <= order)%Z ->
  nth_error (tri_modes order) (List.length (loop_nest (i + j)) + j)
  = Some (i, j).
Proof.
  intros H. unfold tri_modes.
  rewrite nth_error_map, loop_nest_nth by lia.
  cbn [option_map]. f_equal. f_equal. lia.
Qed.

(** The mode number of the degree pair [(i, j)]. *)
Lemma tri_mode_number (order : Z) (i j : nat) :
  (Z.of_nat (i + j) <= order)%Z ->
  let mode := (Z.of_nat (i + j) * (Z.of_nat (i + j) + 1) / 2 + Z.of_nat j)%Z in
  (0 <= mode < ((order + 1) * (order + 2)) ÷ 2)%Z
  /\ nth_error (tri_modes order) (Z.to_nat mode) = Some (i, j).
Proof.
  intros H mode.
  assert (E : mode = Z.of_nat (List.length (loop_nest (i + j)) + j)).
  { unfold mode.
    rewrite (Nat2Z.inj_add (List.length (loop_nest (i + j))) j).
    rewrite loop_nest_length_Z. reflexivity. }
  assert (N : nth_error (tri_modes order) (Z.to_nat mode) = Some (i, j)).
  { rewrite E, Nat2Z.id. apply tri_modes_nth. exact H. }
  split; [| exact N].
  assert (Hlt : (Z.to_nat mode < List.length (tri_modes order))%nat).
  { apply nth_error_Some. rewrite N. discriminate. }
  rewrite <- tri_modes_length by lia. lia.
Qed.

(** X15. The numbering of the Dubiner modes in closed form: for an order
    [>= 0] and degrees [i + j <= order], mode [(i+j)(i+j+1)/2 + j] is a
    valid mode, and at that mode the basis function and its two derivative
    functions evaluate the terms of the degree pair [(i, j)]. *)
Theorem dubiner_mode_of_degrees (p0 rs : point) (order : Z) (i j : nat) :
  (Z.of_nat (i + j) <= order)%Z ->
  let mode := (Z.of_nat (i + j) * (Z.of_nat (i + j) + 1) / 2 + Z.of_nat j)%Z in
  (0 <= mode < ((order + 1) * (order + 2)) ÷ 2)%Z
  /\ eval_dubiner_basis_2d p0 rs mode order
     = Ok (dubiner_at (rs_to_ab p0 rs) i j)
  /\ eval_dr_dubiner_basis_2d p0 rs mode order
     = Ok (dr_dubiner_at (rs_to_ab p0 rs) i j)
  /\ eval_ds_dubiner_basis_2d p0 rs mode order
     = Ok (ds_dubiner_at (rs_to_ab p0 rs) i j).
Proof.
  intros H mode.
  destruct (tri_mode_number order i j H) as [Hr N]. fold mode in Hr, N.
  split; [exact Hr |].
  rewrite eval_dubiner_basis_2d_at, eval_dr_dubiner_basis_2d_at,
    eval_ds_dubiner_basis_2d_at by lia.
  unfold at_mode. rewrite N.
  destruct (Z.ltb_spec mode 0); [lia |].
  repeat split; reflexivity.
Qed.

Lemma dubiner_mode_of_degrees_witness :
  eval_dubiner_basis_2d (mkpoint 0 0) (mkpoint 0 0)
    (Z.of_nat (1 + 1) * (Z.of_nat (1 + 1) + 1) / 2 + Z.of_nat 1) 3
  = Ok (dubiner_at (rs_to_ab (mkpoint 0 0) (mkpoint 0 0)) 1 1).
Proof.
  assert (H : (Z.of_nat (1 + 1) <= 3)%Z) by (simpl; lia).
  exact (proj1 (proj2
    (dubiner_mode_of_degrees (mkpoint 0 0) (mkpoint 0 0) 3 1 1 H))).
Defined.





Lemma tri_modes_prefix (order order' : Z) :
  (order <= order')%Z ->
  exists rest, tri_modes order' = tri_modes order ++ rest.
Proof.
  intros H. unfold tri_modes.
  destruct (loop_nest_prefix (Z.to_nat (order + 1))
              (Z.to_nat (order' + 1) - Z.to_nat (order + 1))) as [rest E].
  replace (Z.to_nat (order + 1)
           + (Z.to_nat (order' + 1) - Z.to_nat (order + 1)))%nat
    with (Z.to_nat (order' + 1)) in E by lia.
  rewrite E, map_app. eexists. reflexivity.
Qed.

Lemma at_mode_prefix (modes rest : list (nat * nat)) (in_mode : Z)
    (found : nat -> nat -> R) (dflt : R) :
  (in_mode < Z.of_nat (List.length modes))%Z ->
  at_mode (modes ++ rest) in_mode found dflt
  = at_mode modes in_mode found dflt.
Proof.
  intros H. unfold at_mode.
  destruct (Z.ltb_spec in_mode 0); [reflexivity |].
  rewrite nth_error_app1 by lia. reflexivity.
Qed.

(** X17. The Dubiner basis is hierarchical: raising the truncation order
    keeps every mode it already had.  For orders [0 <= order <= order']
    and a mode below the number of modes of [order], the basis function and
    both derivative functions return the same at [order] and [order']. *)
Theorem dubiner_hierarchical (p0 rs : point) (in_mode order order' : Z) :
  (0 <= order <= order')%Z ->
  (in_mode < ((order + 1) * (order + 2)) ÷ 2)%Z ->
  eval_dubiner_basis_2d p0 rs in_mode order'
  = eval_dubiner_basis_2d p0 rs in_mode order
  /\ eval_dr_dubiner_basis_2d p0 rs in_mode order'
     = eval_dr_dubiner_basis_2d p0 rs in_mode order
  /\ eval_ds_dubiner_basis_2d p0 rs in_mode order'
     = eval_ds_dubiner_basis_2d p0 rs in_mode order.
Proof.
  intros Ho Hm.
  assert (Hm' : (in_mode < ((order' + 1) * (order' + 2)) ÷ 2)%Z).
  { rewrite n_dof_tri in * by lia.
    eapply Z.lt_le_trans; [exact Hm |].
    apply Z.div_le_mono; nia. }
  destruct (tri_modes_prefix order order' ltac:(lia)) as [rest E].
  assert (Hl : (in_mode < Z.of_nat (List.length (tri_modes order)))%Z)
    by (rewrite tri_modes_length by lia; exact Hm).
  rewrite !eval_dubiner_basis_2d_at, !eval_dr_dubiner_basis_2d_at,
    !eval_ds_dubiner_basis_2d_at by assumption.
  rewrite E, !at_mode_prefix by exact Hl.
  repeat split; reflexivity.
Qed.

Lemma dubiner_hierarchical_witness :
  eval_dubiner_basis_2d (mkpoint 0 0) (mkpoint 0 0) 2 3
  = eval_dubiner_basis_2d (mkpoint 0 0) (mkpoint 0 0) 2 1.
Proof.
  assert (Ho : (0 <= 1 <= 3)%Z) by lia.
  assert (Hm : (2 < ((1 + 1) * (1 + 2)) ÷ 2)%Z) by reflexivity.
  exact (proj1
    (dubiner_hierarchical (mkpoint 0 0) (mkpoint 0 0) 2 1 3 Ho Hm)).
Defined.

(** ** Guards and degenerate orders *)

Lemma tri_modes_negative (order : Z) : (order < 0)%Z -> tri_modes order = [].
Proof.
  intros H. unfold tri_modes.
  replace (Z.to_nat (order + 1)) with 0%nat by lia. reflexivity.
Qed.

Lemma square_modes_negative (order : Z) :
  (order < 0)%Z -> square_modes order = [].
Proof.
  intros H. unfold square_modes.
  induction (map (fun '(k, j) => ((k - j)%nat, j))
               (loop_nest (Z.to_nat (order * order + 1)))) as [| [i j] l IH];
    [reflexivity |].
  cbn [filter]. destruct (Z.leb_spec (Z.of_nat i) order); [lia |].
  exact IH.
Qed.

Lemma at_mode_nil (in_mode : Z) (found : nat -> nat -> R) (dflt : R) :
  at_mode [] in_mode found dflt = dflt.
Proof.
  unfold at_mode. destruct (in_mode <? 0)%Z; [reflexivity |].
  destruct (Z.to_nat in_mode); reflexivity.
Qed.

Lemma Legendre2D_hierarchical_at (in_mode : Z) (x0 y0 : R) (rest : list R)
    (order : Z) :
  (in_mode < (order + 1) * (order + 1))%Z ->
  Legendre2D_hierarchical in_mode (x0 :: y0 :: rest) order
  = Ok (at_mode (square_modes order) in_mode
          (fun i j => Legendre x0 (Z.of_nat i) * Legendre y0 (Z.of_nat j)) 0).
Proof.
  intros Hm. unfold Legendre2D_hierarchical, fatal_if.
  destruct (Z.ltb_spec in_mode ((order + 1) * (order + 1))); [| lia].
  cbn [negb bind]. rewrite Legendre2D_hierarchical_loop_eq. reflexivity.
Qed.

Lemma exponential_filter_at (std_pow : R -> R -> R) (in_mode order : Z)
    (exponent : R) :
  (in_mode < (order + 1) * (order + 1))%Z ->
  exponential_filter std_pow in_mode order exponent
  = Ok (at_mode (square_modes order) in_mode
          (fun i j =>
             exp (IZR (-1)
                  * std_pow (IZR (Z.of_nat (i + j))
                             / IZR ((order + 1) * (order + 1))) exponent))
          0).
Proof.
  intros Hm. unfold exponential_filter, fatal_if.
  destruct (Z.ltb_spec in_mode ((order + 1) * (order + 1))); [| lia].
  cbn [negb bind]. rewrite exponential_filter_loop_eq. reflexivity.
Qed.

(** X18. A negative truncation order is not rejected.  For [order < 0] the
    guards compare the mode with [n_dof], which is positive from order -3
    down (triangle) and from order -2 down (square); every mode below
    [n_dof] is accepted, no step of the sweep counts a pair, and all five
    functions return 0. *)
Theorem negative_order_returns_zero (p0 rs : point) (std_pow : R -> R -> R)
    (in_loc : list R) (exponent : R) (in_mode order : Z) :
  (order < 0)%Z ->
  ((in_mode < ((order + 1) * (order + 2)) ÷ 2)%Z ->
   eval_dubiner_basis_2d p0 rs in_mode order = Ok 0
   /\ eval_dr_dubiner_basis_2d p0 rs in_mode order = Ok 0
   /\ eval_ds_dubiner_basis_2d p0 rs in_mode order = Ok 0)
  /\ ((in_mode < (order + 1) * (order + 1))%Z ->
      Legendre2D_hierarchical in_mode in_loc order = Ok 0
      /\ exponential_filter std_pow in_mode order exponent = Ok 0).
Proof.
  intros Ho. split.
  - intros Hm.
    rewrite eval_dubiner_basis_2d_at, eval_dr_dubiner_basis_2d_at,
      eval_ds_dubiner_basis_2d_at by exact Hm.
    rewrite tri_modes_negative, !at_mode_nil by exact Ho.
    repeat split; reflexivity.
  - intros Hm. split.
    + unfold Legendre2D_hierarchical, fatal_if.
      destruct (Z.ltb_spec in_mode ((order + 1) * (order + 1))); [| lia].
      cbn [negb bind]. unfold Legendre2D_hierarchical_loop.
      rewrite (for_each_pure _
                 (fun st kj => if in_square order kj
                               then count_step in_mode (fun _ _ => 0) st kj
                               else st)).
      * rewrite square_sweep, square_modes_negative, at_mode_nil by exact Ho.
        reflexivity.
      * intros [mode v] [k j]. unfold in_square. cbn [fst snd].
        destruct (Z.leb_spec (Z.of_nat (k - j)) order); [lia |].
        reflexivity.
    + rewrite exponential_filter_at by exact Hm.
      rewrite square_modes_negative, at_mode_nil by exact Ho. reflexivity.
Qed.

Lemma negative_order_returns_zero_witness :
  eval_dubiner_basis_2d (mkpoint 0 0) (mkpoint 0 0) 0 (-3) = Ok 0
  /\ Legendre2D_hierarchical 3 [] (-3) = Ok 0.
Proof.
  assert (Ho : (-3 < 0)%Z) by lia.
  destruct (negative_order_returns_zero (mkpoint 0 0) (mkpoint 0 0) Rpower
              [] 1 0 (-3) Ho) as [H1 _].
  destruct (negative_order_returns_zero (mkpoint 0 0) (mkpoint 0 0) Rpower
              [] 1 3 (-3) Ho) as [_ H2].
  split.
  - apply H1. reflexivity.
  - apply H2. reflexivity.
Defined.

(** X19. The guards are the only source of [FatalError] in the five basis
    functions: for every order and every mode, a call ends in
    [FatalError] exactly when the mode is at or above [n_dof]. *)
Theorem basis_fatal_iff (p0 rs : point) (std_pow : R -> R -> R)
    (x0 y0 : R) (exponent : R) (in_mode order : Z) :
  ((exists msg, eval_dubiner_basis_2d p0 rs in_mode order = Fatal msg)
   <-> (((order + 1) * (order + 2)) ÷ 2 <= in_mode)%Z)
  /\ ((exists msg, eval_dr_dubiner_basis_2d p0 rs in_mode order = Fatal msg)
      <-> (((order + 1) * (order + 2)) ÷ 2 <= in_mode)%Z)
  /\ ((exists msg, eval_ds_dubiner_basis_2d p0 rs in_mode order = Fatal msg)
      <-> (((order + 1) * (order + 2)) ÷ 2 <= in_mode)%Z)
  /\ ((exists msg, Legendre2D_hierarchical in_mode [x0; y0] order = Fatal msg)
      <-> ((order + 1) * (order + 1) <= in_mode)%Z)
  /\ ((exists msg,
          exponential_filter std_pow in_mode order exponent = Fatal msg)
      <-> ((order + 1) * (order + 1) <= in_mode)%Z).
Proof.
  repeat split.
  - intros [msg H]. destruct (Z_lt_le_dec in_mode
                                (((order + 1) * (order + 2)) ÷ 2)) as [L | L];
      [rewrite eval_dubiner_basis_2d_at in H by exact L; discriminate
      | exact L].
  - intros L. unfold eval_dubiner_basis_2d.
    destruct (Z.ltb_spec in_mode (((order + 1) * (order + 2)) ÷ 2)); [lia |].
    eexists. reflexivity.
  - intros [msg H]. destruct (Z_lt_le_dec in_mode
                                (((order + 1) * (order + 2)) ÷ 2)) as [L | L];
      [rewrite eval_dr_dubiner_basis_2d_at in H by exact L; discriminate
      | exact L].
  - intros L. unfold eval_dr_dubiner_basis_2d.
    destruct (Z.ltb_spec in_mode (((order + 1) * (order + 2)) ÷ 2)); [lia |].
    eexists. reflexivity.
  - intros [msg H]. destruct (Z_lt_le_dec in_mode
                                (((order + 1) * (order + 2)) ÷ 2)) as [L | L];
      [rewrite eval_ds_dubiner_basis_2d_at in H by exact L; discriminate
      | exact L].
  - intros L. unfold eval_ds_dubiner_basis_2d.
    destruct (Z.ltb_spec in_mode (((order + 1) * (order + 2)) ÷ 2)); [lia |].
    eexists. reflexivity.
  - intros [msg H]. destruct (Z_lt_le_dec in_mode
                                ((order + 1) * (order + 1))) as [L | L];
      [rewrite Legendre2D_hierarchical_at in H by exact L; discriminate
      | exact L].
  - intros L. unfold Legendre2D_hierarchical, fatal_if.
    destruct (Z.ltb_spec in_mode ((order + 1) * (order + 1))); [lia |].
    eexists. reflexivity.
  - intros [msg H]. destruct (Z_lt_le_dec in_mode
                                ((order + 1) * (order + 1))) as [L | L];
      [rewrite exponential_filter_at in H by exact L; discriminate
      | exact L].
  - intros L. unfold exponential_filter, fatal_if.
    destruct (Z.ltb_spec in_mode ((order + 1) * (order + 1))); [lia |].
    eexists. reflexivity.
Qed.

Lemma basis_fatal_iff_witness :
  exists msg,
    eval_dubiner_basis_2d (mkpoint 0 0) (mkpoint 0 0) 3 1 = Fatal msg.
Proof.
  apply (proj1 (basis_fatal_iff (mkpoint 0 0) (mkpoint 0 0) Rpower
                  0 0 1 3 1)).
  apply Z.leb_le. reflexivity.
Defined.

(** X20. The derivatives of the constant mode vanish: for every order
    [>= 0] and every point, mode 0 of [eval_dr_dubiner_basis_2d] and of
    [eval_ds_dubiner_basis_2d] is 0. *)
Theorem dubiner_mode0_derivatives (p0 rs : point) (order : Z) :
  (0 <= order)%Z ->
  eval_dr_dubiner_basis_2d p0 rs 0 order = Ok 0
  /\ eval_ds_dubiner_basis_2d p0 rs 0 order = Ok 0.
Proof.
  intros Ho.
  rewrite eval_dr_dubiner_basis_2d_at, eval_ds_dubiner_basis_2d_at
    by (apply n_dof_tri_pos; exact Ho).
  unfold at_mode. cbn [Z.ltb Z.compare Z.to_nat].
  rewrite tri_modes_head by exact Ho.
  unfold dr_dubiner_at, ds_dubiner_at, eval_grad_jacobi.
  cbn [Nat.eqb]. split; f_equal. ring.
Qed.

Lemma dubiner_mode0_derivatives_witness :
  eval_dr_dubiner_basis_2d (mkpoint 0 0) (mkpoint 0 0) 0 2 = Ok 0
  /\ eval_ds_dubiner_basis_2d (mkpoint 0 0) (mkpoint 0 0) 0 2 = Ok 0.
Proof. apply dubiner_mode0_derivatives. lia. Defined.

(** ** The modes of the square *)

(** X21. From order 2 on (and at order 0) the hierarchical Legendre basis
    is complete: every degree pair [(i, j)] of the square has a valid mode,
    one and the same for all points, at which [Legendre2D_hierarchical]
    returns [Legendre x i * Legendre y j]. *)
Theorem Legendre2D_hierarchical_complete (order : Z) (i j : nat) :
  order = 0%Z \/ (2 <= order)%Z ->
  (Z.of_nat i <= order)%Z -> (Z.of_nat j <= order)%Z ->
  exists in_mode : Z,
    (0 <= in_mode < (order + 1) * (order + 1))%Z
    /\ nth_error (square_modes order) (Z.to_nat in_mode) = Some (i, j)
    /\ forall x0 y0 : R,
         Legendre2D_hierarchical in_mode [x0; y0] order
         = Ok (Legendre x0 (Z.of_nat i) * Legendre y0 (Z.of_nat j)).
Proof.
  intros Ho Hi Hj.
  assert (Hin : In (i, j) (square_modes order)).
  { apply square_modes_In; [lia | nia]. }
  apply In_nth_error in Hin. destruct Hin as [m Hm].
  assert (Hlt : (m < List.length (square_modes order))%nat).
  { apply nth_error_Some. rewrite Hm. discriminate. }
  pose proof (square_modes_count order Ho) as C.
  exists (Z.of_nat m). split; [lia |].
  rewrite Nat2Z.id. split; [exact Hm |].
  intros x0 y0.
  rewrite Legendre2D_hierarchical_at by lia.
  unfold at_mode. destruct (Z.ltb_spec (Z.of_nat m) 0); [lia |].
  rewrite Nat2Z.id, Hm. reflexivity.
Qed.

Lemma Legendre2D_hierarchical_complete_witness :
  exists in_mode : Z,
    (0 <= in_mode < (2 + 1) * (2 + 1))%Z
    /\ nth_error (square_modes 2) (Z.to_nat in_mode) = Some (2%nat, 2%nat)
    /\ forall x0 y0 : R,
         Legendre2D_hierarchical in_mode [x0; y0] 2
         = Ok (Legendre x0 (Z.of_nat 2) * Legendre y0 (Z.of_nat 2)).
Proof.
  apply Legendre2D_hierarchical_complete; [right; lia | simpl; lia ..].
Defined.

Lemma filter_all {A : Type} (c : A -> bool) (l : list A) :
  (forall a, In a l -> c a = true) -> filter c l = l.
Proof.
  induction l as [| a l IH]; intros H; [reflexivity |].
  cbn [filter]. rewrite (H a) by (left; reflexivity).
  f_equal. apply IH. intros b Hb. apply H. right. exact Hb.
Qed.

(** The square sweep starts with the modes of the triangle sweep. *)
Lemma square_modes_prefix (order : Z) :
  (0 <= order)%Z ->
  exists rest, square_modes order = tri_modes order ++ rest.
Proof.
  intros Ho. rewrite square_modes_eq. unfold tri_modes.
  destruct (loop_nest_prefix (Z.to_nat (order + 1))
              (Z.to_nat (order * order + 1) - Z.to_nat (order + 1)))
    as [rest E].
  replace (Z.to_nat (order + 1)
           + (Z.to_nat (order * order + 1) - Z.to_nat (order + 1)))%nat
    with (Z.to_nat (order * order + 1)) in E by nia.
  rewrite E, filter_app, map_app.
  rewrite (filter_all (in_square order) (loop_nest (Z.to_nat (order + 1)))).
  - eexists. reflexivity.
  - intros [k j] H. apply loop_nest_In in H.
    unfold in_square. cbn [fst snd].
    apply andb_true_intro. split; apply Z.leb_le; lia.
Qed.

(** X22. [Legendre2D_hierarchical] numbers its low modes by total degree:
    for an order [>= 0] and degrees [i + j <= order], mode
    [(i+j)(i+j+1)/2 + j] is valid and returns
    [Legendre x i * Legendre y j], at order 1 too. *)
Theorem Legendre2D_hierarchical_low_modes (x0 y0 : R) (order : Z)
    (i j : nat) :
  (Z.of_nat (i + j) <= order)%Z ->
  let mode := (Z.of_nat (i + j) * (Z.of_nat (i + j) + 1) / 2 + Z.of_nat j)%Z in
  (0 <= mode < (order + 1) * (order + 1))%Z
  /\ Legendre2D_hierarchical mode [x0; y0] order
     = Ok (Legendre x0 (Z.of_nat i) * Legendre y0 (Z.of_nat j)).
Proof.
  intros H mode.
  destruct (tri_mode_number order i j H) as [Hr N]. fold mode in Hr, N.
  assert (Ho : (0 <= order)%Z) by lia.
  rewrite n_dof_tri in Hr by exact Ho.
  assert (Hsq : (((order + 1) * (order + 2)) / 2
                 <= (order + 1) * (order + 1))%Z).
  { apply Z.div_le_upper_bound; nia. }
  split; [lia |].
  rewrite Legendre2D_hierarchical_at by lia.
  destruct (square_modes_prefix order Ho) as [rest E].
  rewrite E. unfold at_mode.
  destruct (Z.ltb_spec mode 0); [lia |].
  rewrite nth_error_app1, N; [reflexivity |].
  apply nth_error_Some. rewrite N. discriminate.
Qed.

Lemma Legendre2D_hierarchical_low_modes_witness :
  Legendre2D_hierarchical
    (Z.of_nat (1 + 0) * (Z.of_nat (1 + 0) + 1) / 2 + Z.of_nat 0)
    [1 / 2; 1 / 3] 1
  = Ok (Legendre (1 / 2) (Z.of_nat 1) * Legendre (1 / 3) (Z.of_nat 0)).
Proof.
  assert (H : (Z.of_nat (1 + 0) <= 1)%Z) by (simpl; lia).
  exact (proj2 (Legendre2D_hierarchical_low_modes (1 / 2) (1 / 3) 1 1 0 H)).
Defined.

(** ** eval_jacobi with both weights 0 *)

Lemma sqrt_of_square (u v : R) : 0 <= v -> v * v = u -> sqrt u = v.
Proof.
  intros Hv E. apply sqrt_lem_1; [rewrite <- E; nra | exact Hv | exact E].
Qed.

Lemma sqrt_half_of (u : R) : 0 <= u -> sqrt (u / 2) = sqrt u / sqrt 2.
Proof.
  intros Hu. apply sqrt_of_square.
  - apply Rmult_le_pos; [apply sqrt_pos |].
    apply Rlt_le, Rinv_0_lt_compat, sqrt_lt_R0. lra.
  - transitivity (sqrt u * sqrt u / (sqrt 2 * sqrt 2)).
    + field. apply Rgt_not_eq, sqrt_lt_R0. lra.
    + rewrite !sqrt_sqrt by lra. reflexivity.
Qed.

(** One step of the recursion of [eval_jacobi] at weights 0, taken on the
    scaled Legendre values. *)
Lemma jacobi_00_step (N r b c : R) :
  2 <= N ->
  1 / (2 / (2 * N)
       * sqrt (N * N * N * N / ((2 * N - 1) * (2 * N + 1))))
  * (r * (sqrt ((2 * (N - 1) + 1) / 2) * b)
     - 2 / (2 * (N - 1))
       * sqrt ((N - 1) * (N - 1) * (N - 1) * (N - 1)
               / ((2 * (N - 1) - 1) * (2 * (N - 1) + 1)))
       * (sqrt ((2 * (N - 2) + 1) / 2) * c)
     - 0 / (2 * (N - 1) * (2 * (N - 1) + 2))
       * (sqrt ((2 * (N - 1) + 1) / 2) * b))
  = sqrt ((2 * N + 1) / 2) * (((2 * N - 1) * r * b - (N - 1) * c) / N).
Proof.
  intros HN.
  set (A := sqrt (2 * N - 1)). set (B := sqrt (2 * N + 1)).
  set (C := sqrt (2 * N - 3)). set (T := sqrt 2).
  assert (HA : 0 < A) by (apply sqrt_lt_R0; lra).
  assert (HB : 0 < B) by (apply sqrt_lt_R0; lra).
  assert (HC : 0 < C) by (apply sqrt_lt_R0; lra).
  assert (HT : 0 < T) by (apply sqrt_lt_R0; lra).
  assert (AA : A * A = 2 * N - 1) by (apply sqrt_sqrt; lra).
  assert (BB : B * B = 2 * N + 1) by (apply sqrt_sqrt; lra).
  assert (CC : C * C = 2 * N - 3) by (apply sqrt_sqrt; lra).
  assert (S1 : sqrt (N * N * N * N / ((2 * N - 1) * (2 * N + 1)))
               = N * N / (A * B)).
  { apply sqrt_of_square.
    - apply Rmult_le_pos; [nra |].
      apply Rlt_le, Rinv_0_lt_compat, Rmult_lt_0_compat; assumption.
    - rewrite <- AA, <- BB. field. split; lra. }
  assert (S2 : sqrt ((N - 1) * (N - 1) * (N - 1) * (N - 1)
                     / ((2 * (N - 1) - 1) * (2 * (N - 1) + 1)))
               = (N - 1) * (N - 1) / (C * A)).
  { apply sqrt_of_square.
    - apply Rmult_le_pos; [nra |].
      apply Rlt_le, Rinv_0_lt_compat, Rmult_lt_0_compat; assumption.
    - replace (2 * (N - 1) - 1) with (C * C) by lra.
      replace (2 * (N - 1) + 1) with (A * A) by lra.
      field. split; lra. }
  assert (S3 : sqrt ((2 * (N - 1) + 1) / 2) = A / T).
  { replace (2 * (N - 1) + 1) with (2 * N - 1) by ring.
    apply sqrt_half_of. lra. }
  assert (S4 : sqrt ((2 * (N - 2) + 1) / 2) = C / T).
  { replace (2 * (N - 2) + 1) with (2 * N - 3) by ring.
    apply sqrt_half_of. lra. }
  assert (S5 : sqrt ((2 * N + 1) / 2) = B / T) by (apply sqrt_half_of; lra).
  rewrite S1, S2, S3, S4, S5.
  replace (2 * N - 1) with (A * A) by exact AA.
  field. repeat split; lra.
Qed.

Lemma eval_jacobi_00_SS (r : R) (m : nat) :
  let N := IZR (Z.of_nat (S (S m))) in
  eval_jacobi r 0 0 (S (S m))
  = 1 / (2 / (2 * N)
         * sqrt (N * N * N * N / ((2 * N - 1) * (2 * N + 1))))
    * (r * eval_jacobi r 0 0 (S m)
       - 2 / (2 * (N - 1))
         * sqrt ((N - 1) * (N - 1) * (N - 1) * (N - 1)
                 / ((2 * (N - 1) - 1) * (2 * (N - 1) + 1)))
         * eval_jacobi r 0 0 m
       - 0 / (2 * (N - 1) * (2 * (N - 1) + 2))
         * eval_jacobi r 0 0 (S m)).
Proof.
  intros N. unfold N. clear N.
  set (n := Z.of_nat (S (S m))).
  change (eval_jacobi r 0 0 (S (S m))) with
    (let dtemp_0 := IZR (n * (n + 0 + 0) * (n + 0) * (n + 0)) in
     let dtemp_1 := IZR ((2 * n + 0 + 0 - 1) * (2 * n + 0 + 0 + 1)) in
     let dtemp_3 := IZR (2 * n + 0 + 0) in
     let dtemp_4 :=
       IZR ((n - 1) * ((n - 1) + 0 + 0) * ((n - 1) + 0) * ((n - 1) + 0)) in
     let dtemp_5 :=
       IZR ((2 * (n - 1) + 0 + 0 - 1) * (2 * (n - 1) + 0 + 0 + 1)) in
     let dtemp_6 := IZR (2 * (n - 1) + 0 + 0) in
     let dtemp_7 := IZR (- (0 * 0 - 0 * 0)) in
     let dtemp_8 :=
       IZR ((2 * (n - 1) + 0 + 0) * (2 * (n - 1) + 0 + 0 + 2)) in
     let dtemp_9 := (2 / dtemp_3) * sqrt (dtemp_0 / dtemp_1) in
     let dtemp_10 := (2 / dtemp_6) * sqrt (dtemp_4 / dtemp_5) in
     let dtemp_11 := dtemp_7 / dtemp_8 in
     let dtemp_12 := r * eval_jacobi r 0 0 (S m) in
     let dtemp_13 := dtemp_10 * eval_jacobi r 0 0 m in
     let dtemp_14 := dtemp_11 * eval_jacobi r 0 0 (S m) in
     (1 / dtemp_9) * (dtemp_12 - dtemp_13 - dtemp_14)).
  cbv zeta. rewrite !Z.add_0_r.
  rewrite ?mult_IZR, ?minus_IZR, ?plus_IZR, ?mult_IZR, ?minus_IZR.
  reflexivity.
Qed.

Lemma eval_jacobi_00_1 (r : R) : eval_jacobi r 0 0 1 = sqrt (3 / 2) * r.
Proof.
  change (eval_jacobi r 0 0 1)
    with (0.5 * sqrt (powerRZ 2 (-1)
                      * (eval_gamma 2 / (eval_gamma 1 * eval_gamma 1)))
          * sqrt (IZR 3 / IZR 1) * (r * IZR 2 + IZR 0)).
  rewrite eval_gamma_1, eval_gamma_2, half_eq.
  replace (powerRZ 2 (-1) * (1 / (1 * 1))) with (1 / 2) by (simpl; field).
  replace (3 / 1) with 3 by field.
  replace (3 / 2) with (3 * (1 / 2)) by field.
  rewrite (sqrt_mult 3 (1 / 2)) by lra. field.
Qed.

Lemma eval_jacobi_00_Legendre (r : R) (n : nat) :
  eval_jacobi r 0 0 n
  = sqrt ((2 * IZR (Z.of_nat n) + 1) / 2) * Legendre r (Z.of_nat n).
Proof.
  induction n as [| | n IH0 IH1] using nat_two_step_ind.
  - rewrite eval_jacobi_0_0_0. simpl. rewrite Legendre_0.
    replace ((2 * 0 + 1) / 2) with (1 / 2) by field. ring.
  - rewrite eval_jacobi_00_1. simpl. rewrite Legendre_1.
    replace ((2 * 1 + 1) / 2) with (3 / 2) by field. reflexivity.
  - rewrite eval_jacobi_00_SS. cbv zeta. rewrite IH0, IH1.
    set (z := Z.of_nat (S (S n))).
    assert (Hz : (2 <= z)%Z) by (unfold z; lia).
    replace (Z.of_nat (S n)) with (z - 1)%Z by (unfold z; lia).
    replace (Z.of_nat n) with (z - 2)%Z by (unfold z; lia).
    rewrite (Legendre_rec r z) by exact Hz.
    rewrite !minus_IZR, mult_IZR.
    apply jacobi_00_step. apply (IZR_le 2). exact Hz.
Qed.

(** X23. With both weights 0 the normalised Jacobi polynomial is the
    Legendre polynomial scaled to unit norm: for every order [n] and every
    [r], [eval_jacobi r 0 0 n = sqrt((2n+1)/2) * Legendre r n]. *)
Theorem eval_jacobi_00_is_Legendre (r : R) (n : nat) :
  eval_jacobi r 0 0 n
  = sqrt ((2 * IZR (Z.of_nat n) + 1) / 2) * Legendre r (Z.of_nat n).
Proof. apply eval_jacobi_00_Legendre. Qed.

(** ** Every valid mode of the square has its pair *)

Lemma square_mode_pair (order in_mode : Z) :
  order = 0%Z \/ (2 <= order)%Z ->
  (0 <= in_mode < (order + 1) * (order + 1))%Z ->
  exists i j : nat,
    nth_error (square_modes order) (Z.to_nat in_mode) = Some (i, j)
    /\ (Z.of_nat i <= order)%Z /\ (Z.of_nat j <= order)%Z.
Proof.
  intros Ho Hm.
  pose proof (square_modes_count order Ho) as C.
  destruct (nth_error (square_modes order) (Z.to_nat in_mode))
    as [[i j] |] eqn:E.
  - exists i, j. split; [reflexivity |].
    apply nth_error_In in E. apply square_modes_In in E; lia.
  - apply nth_error_None in E. lia.
Qed.

(** X24. From order 2 on (and at order 0) every valid mode of the square
    has a degree pair [(i, j)] inside the square, one and the same for all
    points, exponents and power functions: [Legendre2D_hierarchical]
    returns [Legendre x i * Legendre y j] for it, and
    [exponential_filter] returns the coefficient
    [exp(-pow((i+j)/n_dof, exponent))], which is positive. *)
Theorem square_modes_sound (order in_mode : Z) :
  order = 0%Z \/ (2 <= order)%Z ->
  (0 <= in_mode < (order + 1) * (order + 1))%Z ->
  exists i j : nat,
    nth_error (square_modes order) (Z.to_nat in_mode) = Some (i, j)
    /\ (Z.of_nat i <= order)%Z /\ (Z.of_nat j <= order)%Z
    /\ (forall x0 y0 : R,
          Legendre2D_hierarchical in_mode [x0; y0] order
          = Ok (Legendre x0 (Z.of_nat i) * Legendre y0 (Z.of_nat j)))
    /\ (forall (std_pow : R -> R -> R) (exponent : R),
          exponential_filter std_pow in_mode order exponent
          = Ok (exp (IZR (-1)
                     * std_pow (IZR (Z.of_nat (i + j))
                                / IZR ((order + 1) * (order + 1))) exponent))
          /\ 0 < exp (IZR (-1)
                      * std_pow (IZR (Z.of_nat (i + j))
                                 / IZR ((order + 1) * (order + 1)))
                          exponent)).
Proof.
  intros Ho Hm.
  destruct (square_mode_pair order in_mode Ho Hm) as (i & j & N & Hi & Hj).
  exists i, j.
  split; [exact N |]. split; [exact Hi |]. split; [exact Hj |].
  split.
  - intros x0 y0. rewrite Legendre2D_hierarchical_at by lia.
    unfold at_mode. destruct (Z.ltb_spec in_mode 0); [lia |].
    rewrite N. reflexivity.
  - intros std_pow exponent. split; [| apply exp_pos].
    rewrite exponential_filter_at by lia.
    unfold at_mode. destruct (Z.ltb_spec in_mode 0); [lia |].
    rewrite N. reflexivity.
Qed.

Lemma square_modes_sound_witness :
  exists i j : nat,
    nth_error (square_modes 2) (Z.to_nat 8) = Some (i, j)
    /\ (Z.of_nat i <= 2)%Z /\ (Z.of_nat j <= 2)%Z
    /\ (forall x0 y0 : R,
          Legendre2D_hierarchical 8 [x0; y0] 2
          = Ok (Legendre x0 (Z.of_nat i) * Legendre y0 (Z.of_nat j)))
    /\ (forall (std_pow : R -> R -> R) (exponent : R),
          exponential_filter std_pow 8 2 exponent
          = Ok (exp (IZR (-1)
                     * std_pow (IZR (Z.of_nat (i + j))
                                / IZR ((2 + 1) * (2 + 1))) exponent))
          /\ 0 < exp (IZR (-1)
                      * std_pow (IZR (Z.of_nat (i + j))
                                 / IZR ((2 + 1) * (2 + 1))) exponent)).
Proof.
  apply square_modes_sound; [right; lia | lia].
Defined.

(** ** The Dubiner basis and the first coordinate *)

(** X25. Away from [r = 1] the Dubiner functions do not look at [r]: two
    points with the same [s] and first coordinates other than 1 give the
    same value of the basis function and of both derivative functions, for
    every mode and order. *)
Theorem dubiner_ignores_r (p0 : point) (r r' s : R) (in_mode order : Z) :
  r <> 1 -> r' <> 1 ->
  eval_dubiner_basis_2d p0 (mkpoint r s) in_mode order
  = eval_dubiner_basis_2d p0 (mkpoint r' s) in_mode order
  /\ eval_dr_dubiner_basis_2d p0 (mkpoint r s) in_mode order
     = eval_dr_dubiner_basis_2d p0 (mkpoint r' s) in_mode order
  /\ eval_ds_dubiner_basis_2d p0 (mkpoint r s) in_mode order
     = eval_ds_dubiner_basis_2d p0 (mkpoint r' s) in_mode order.
Proof.
  intros Hr Hr'.
  unfold eval_dubiner_basis_2d, eval_dr_dubiner_basis_2d,
    eval_ds_dubiner_basis_2d.
  rewrite (rs_to_ab_off_apex p0 (mkpoint r s)) by exact Hr.
  rewrite (rs_to_ab_off_apex p0 (mkpoint r' s)) by exact Hr'.
  repeat split; reflexivity.
Qed.

Lemma dubiner_ignores_r_witness :
  eval_dubiner_basis_2d (mkpoint 0 0) (mkpoint 0 0) 1 1
  = eval_dubiner_basis_2d (mkpoint 0 0) (mkpoint (-1) 0) 1 1.
Proof.
  assert (H0 : 0 <> 1) by lra.
  assert (H1 : -1 <> 1) by lra.
  exact (proj1 (dubiner_ignores_r (mkpoint 0 0) 0 (-1) 0 1 1 H0 H1)).
Defined.
